(** * update_tags_ja.py: the CSV localizer

    A shallow embedding of [update_tags_ja.py] and of the library calls it
    makes ([open], [csv.reader], [csv.writer], [os.replace], [print]),
    followed by the properties of the transform
    load -> augment -> write -> replace.

    Conventions of the model.
    - A Python [str] is represented by its UTF-8 encoding, a [string] of
      bytes.  Decoding a file is then a validity check and encoding is the
      identity; the characters the program and the [csv] module look at
      (comma, double quote, CR, LF) are single bytes, and the one place that
      counts characters (the reader's field size limit) counts the bytes that
      start a code point.
    - A Python list is a [list], a [dict] a [gmap]; an index out of range
      raises [IndexError].
    - An exception is the [Raise] case of [result]; code that touches the file
      system runs in a state-and-exception monad over [world], which holds
      the disk, the disks it went through, and the standard output.
    - The input file is read and decoded chunk by chunk, as its lines are
      asked for: the rows of the chunks that decode are processed before an
      undecodable byte further on raises.  A write reaches the disk at once. *)

From Stdlib Require Import Ascii String NArith.
From stdpp Require Import gmap strings list.

Open Scope string_scope.
Open Scope list_scope.
Open Scope nat_scope.

(** ** Exceptions *)

Inductive syscall := SysOpenRead | SysOpenWrite | SysWrite | SysReplace.

Inductive exn :=
  | StopIteration
  | IndexError
  | UnicodeDecodeError
  | csv_Error
  | OSError (op : syscall).

Inductive result (A : Type) :=
  | Ok (a : A)
  | Raise (e : exn).
Arguments Ok {A} a.
Arguments Raise {A} e.

#[global] Instance result_ret : MRet result := fun A a => Ok a.
#[global] Instance result_bind : MBind result := fun A B f m =>
  match m with
  | Ok a => f a
  | Raise e => Raise e
  end.

(** ** Python lists and dicts *)

Abbreviation Row := (list string).
Abbreviation Document := (list (list string)).

(** [l[i]] for a non-negative literal index. *)
Definition getitem {A} (l : list A) (i : nat) : result A :=
  match l !! i with
  | Some x => Ok x
  | None => Raise IndexError
  end.

(** [l[i] = x] for a non-negative literal index. *)
Definition setitem {A} (l : list A) (i : nat) (x : A) : result (list A) :=
  if decide (i < length l) then Ok (<[i:=x]> l) else Raise IndexError.

(** A dict display [{k1: v1, k2: v2, ...}]: the items are stored from left to
    right, so a later item wins over an earlier one with the same key. *)
Definition dict_literal (items : list (string * string)) : gmap string string :=
  foldl (fun d kv => <[kv.1 := kv.2]> d) ∅ items.

(** [d.get(k, dflt)] *)
Definition dict_get (d : gmap string string) (k dflt : string) : string :=
  default dflt (d !! k).

(** ** The translation table and the two paths *)

Definition translations : gmap string string := dict_literal [
  ("^value(expression)^", "指定した式を評価して、その結果を文字列として書き出します。属性の値や、計算結果、連結された文字列などを出力する際に使用します。");
  ("^action( action )^", "アクションコードを実行します。このタグ自体は何も書き出しませんが、書き出し中にノートの属性（$Colorなど）を永続的に変更したり、変数を操作したりするのに使用します。");
  ("^if( condition )^", "指定された条件（アクションコード式のクエリ）を評価します。真（true）の場合、その後のコード（または^else^まで）が書き出されます。");
  ("^else^", "^if^タグの条件が偽（false）だった場合に書き出すブロックを開始します。");
  ("^endIf^", "^if^ブロックの終了を示します。");
  ("^include( ^value(item|group)^[, ^value(template)^] )^", "指定したノート（またはノートのグループ）を、指定したテンプレート（省略時はそのノートのデフォルトテンプレート）を使用して取り込みます。");
  ("^title( [item] )^", "ノートのタイトル（$Name）を書き出します。HTMLエンティティが適切に処理されます。");
  ("^text( [item, N, plain] )^", "ノートの本文（$Text）を書き出します。特定の段落数(N)のみや、プレーンテキストとしての出力も可能です。");
  ("^children( [template][,N] )^", "現在のノートの直下の子ノートを、指定したテンプレートで書き出します。");
  ("^descendants( [template][,N] )^", "現在のノートのすべての子孫ノートを、指定したテンプレートで書き出します。");
  ("^root^", "サイトのルートディレクトリへの相対パスを書き出します。画像やCSSへのパス指定に便利です。");
  ("^url( item )^", "エクスポートされるHTMLページへの相対URLを書き出します。")
].

Definition input_file : string :=
  "/Users/tk4o2ka/github/tinderboxlspserver/resource/export_tags.csv".
Definition output_file : string :=
  "/Users/tk4o2ka/github/tinderboxlspserver/resource/export_tags_ja.csv".

(** ** The two steps of the loop that do not touch a file *)

(** [if len(header) < 3: header.append('DescriptionJa')] *)
Definition augment_header (header : Row) : Row :=
  if decide (length header < 3) then header ++ ["DescriptionJa"] else header.

(** The body of [for row in reader], up to the call of [writer.writerow]. *)
Definition augment_row (row : Row) : result Row :=
  name ← getitem row 0;
  desc_en ← getitem row 1;
  let desc_ja := dict_get translations name "" in
  if decide (length row < 3) then Ok (row ++ [desc_ja])
  else setitem row 2 desc_ja.

(** ** Text files: [open(..., encoding='utf-8')]

    Bytes are decoded strictly.  The validity of a byte string is decided by
    the automaton of the well-formed UTF-8 byte sequences (no overlong forms,
    no surrogates, nothing above U+10FFFF). *)

Definition chr (n : N) : ascii := ascii_of_N n.
Definition LF : ascii := chr 10.
Definition CR : ascii := chr 13.
Definition COMMA : ascii := chr 44.
Definition DQUOTE : ascii := chr 34.

Definition byte_between (lo hi : N) (b : ascii) : bool :=
  ((lo <=? N_of_ascii b) && (N_of_ascii b <=? hi))%N.

Inductive utf8_state :=
  | U_accept                    (* at a code point boundary *)
  | U_cont1 | U_cont2 | U_cont3 (* 1, 2, 3 continuation bytes to come *)
  | U_e0 | U_ed                 (* after E0, after ED: restricted second byte *)
  | U_f0 | U_f4                 (* after F0, after F4: restricted second byte *)
  | U_reject.

#[global] Instance utf8_state_eq_dec : EqDecision utf8_state.
Proof. solve_decision. Defined.

Definition utf8_step (st : utf8_state) (b : ascii) : utf8_state :=
  match st with
  | U_accept =>
      if byte_between 0x00 0x7F b then U_accept
      else if byte_between 0xC2 0xDF b then U_cont1
      else if byte_between 0xE0 0xE0 b then U_e0
      else if byte_between 0xE1 0xEC b then U_cont2
      else if byte_between 0xED 0xED b then U_ed
      else if byte_between 0xEE 0xEF b then U_cont2
      else if byte_between 0xF0 0xF0 b then U_f0
      else if byte_between 0xF1 0xF3 b then U_cont3
      else if byte_between 0xF4 0xF4 b then U_f4
      else U_reject
  | U_cont1 => if byte_between 0x80 0xBF b then U_accept else U_reject
  | U_cont2 => if byte_between 0x80 0xBF b then U_cont1 else U_reject
  | U_cont3 => if byte_between 0x80 0xBF b then U_cont2 else U_reject
  | U_e0 => if byte_between 0xA0 0xBF b then U_cont1 else U_reject
  | U_ed => if byte_between 0x80 0x9F b then U_cont1 else U_reject
  | U_f0 => if byte_between 0x90 0xBF b then U_cont2 else U_reject
  | U_f4 => if byte_between 0x80 0x8F b then U_cont2 else U_reject
  | U_reject => U_reject
  end.

Fixpoint utf8_run (st : utf8_state) (s : string) : utf8_state :=
  match s with
  | EmptyString => st
  | String b s' => utf8_run (utf8_step st b) s'
  end.

Definition utf8_valid (s : string) : bool :=
  bool_decide (utf8_run U_accept s = U_accept).

(** The number of code points of a (valid) string: [len(s)] in Python. *)
Definition starts_code_point (b : ascii) : bool := negb (byte_between 0x80 0xBF b).

Fixpoint str_len (s : string) : N :=
  match s with
  | EmptyString => 0
  | String b s' => ((if starts_code_point b then 1 else 0) + str_len s')%N
  end.

(** Reading with [newline=None], the default of [open(input_file, 'r')]:
    CR LF, a lone CR and LF all arrive as LF.  [after_cr] tells that the
    character before was a CR, already delivered as LF. *)
Fixpoint translate_newlines (after_cr : bool) (s : string) : string :=
  match s with
  | EmptyString => EmptyString
  | String c s' =>
      if bool_decide (c = CR) then String LF (translate_newlines true s')
      else if bool_decide (c = LF) && after_cr then translate_newlines false s'
      else String c (translate_newlines false s')
  end.

Definition universal_newlines (s : string) : string := translate_newlines false s.

(** [f.read()]: the decoded, translated text of the whole file. *)
Definition TextIOWrapper_read (bytes : string) : result string :=
  if utf8_valid bytes then Ok (universal_newlines bytes)
  else Raise UnicodeDecodeError.

(** Iterating over a text file: the lines, each with its LF, the last one
    possibly without. *)
Fixpoint readlines (s : string) : list string :=
  match s with
  | EmptyString => []
  | String c s' =>
      if bool_decide (c = LF) then String c EmptyString :: readlines s'
      else match readlines s' with
           | [] => [String c EmptyString]
           | l :: ls => String c l :: ls
           end
  end.

(** ** Iterating over the input file

    [csv.reader(f_in)] asks [f_in] for one line at a time.  The text layer
    reads the file in chunks of [CHUNK_SIZE] bytes and decodes the next chunk
    only when the text decoded so far holds no complete line.  A line is
    handed over as soon as its LF has been decoded; an undecodable byte
    raises when the chunk that holds it is decoded, after the lines of the
    chunks before it; a code point cut short by the end of the file raises at
    the end of the file. *)

Definition CHUNK_SIZE : nat := 8 * 1024.

(** What the successive [buffer.read1(size)] return, until the empty chunk
    of the end of the file; [room] is what the first chunk can still take. *)
Fixpoint read1_chunks (size room : nat) (bytes : string) : list string :=
  match bytes with
  | EmptyString => []
  | String b bytes' =>
      match room with
      | 0 | 1 => String b EmptyString :: read1_chunks size size bytes'
      | S room' =>
          match read1_chunks size room' bytes' with
          | [] => [String b EmptyString]
          | chunk :: chunks => String b chunk :: chunks
          end
      end
  end.

(** The incremental UTF-8 decoder, [decode(chunk, final=False)]: from the
    state [st], with [held] the bytes of a code point begun in an earlier
    chunk.  It returns the code points that are complete, the state at the
    end of the chunk and the bytes held back for the next call; [None] is
    UnicodeDecodeError.  A byte that cannot continue the sequence raises at
    once, with one exception: the first two bytes of an encoded surrogate
    (ED, then A0 to BF) at the very end of the chunk are held back, and the
    error comes with the next byte or at the end of the file. *)
Definition truncated_surrogate (st : utf8_state) (b : ascii) (rest : string) : bool :=
  bool_decide (st = U_ed) && byte_between 0xA0 0xBF b && bool_decide (rest = EmptyString).

Fixpoint utf8_decode (st : utf8_state) (held chunk : string)
  : option (string * (utf8_state * string)) :=
  match chunk with
  | EmptyString => Some (EmptyString, (st, held))
  | String b chunk' =>
      match utf8_step st b with
      | U_reject =>
          if truncated_surrogate st b chunk'
          then Some (EmptyString, (U_reject, held +:+ String b EmptyString))
          else None
      | U_accept =>
          match utf8_decode U_accept EmptyString chunk' with
          | Some (text, rest) => Some (held +:+ String b text, rest)
          | None => None
          end
      | st' => utf8_decode st' (held +:+ String b EmptyString) chunk'
      end
  end.

Fixpoint ends_with_CR (s : string) : bool :=
  match s with
  | EmptyString => false
  | String c s' =>
      match s' with
      | EmptyString => bool_decide (c = CR)
      | _ => ends_with_CR s'
      end
  end.

Fixpoint drop_last (s : string) : string :=
  match s with
  | EmptyString => EmptyString
  | String c s' =>
      match s' with
      | EmptyString => EmptyString
      | _ => String c (drop_last s')
      end
  end.

(** [IncrementalNewlineDecoder.decode], on what the UTF-8 decoder returned:
    a CR at the end of the output is kept back ([pendingcr]) until the next
    output shows whether an LF follows it. *)
Definition newline_decode (pendingcr : bool) (output : string) (final : bool)
  : string * bool :=
  let '(output, pendingcr) :=
    if pendingcr && (final || negb (bool_decide (output = EmptyString)))
    then (String CR output, false)
    else (output, pendingcr) in
  let '(output, pendingcr) :=
    if negb final && ends_with_CR output then (drop_last output, true)
    else (output, pendingcr) in
  (translate_newlines false output, pendingcr).

(** The complete lines at the head of a text, and what follows the last
    LF. *)
Fixpoint split_lines (s : string) : list string * string :=
  match s with
  | EmptyString => ([], EmptyString)
  | String c s' =>
      let '(lines, partial) := split_lines s' in
      if bool_decide (c = LF) then (String c EmptyString :: lines, partial)
      else match lines with
           | [] => ([], String c partial)
           | l :: ls => (String c l :: ls, partial)
           end
  end.

(** The lines that iterating over the file yields, and the exception that
    ends the iteration if there is one.  [chunks] is what is left of the
    file, [st], [held] and [pendingcr] the state of the decoder, and
    [decoded_chars] the text decoded and not yet handed over, which holds no
    complete line when a chunk is read. *)
Fixpoint TextIOWrapper_iter (chunks : list string) (st : utf8_state) (held : string)
    (pendingcr : bool) (decoded_chars : string) : list string * option exn :=
  match chunks with
  | [] =>
      (* the end of the file: [decode(b'', final=True)] *)
      if bool_decide (st = U_accept) then
        let '(output, _) := newline_decode pendingcr EmptyString true in
        (readlines (decoded_chars +:+ output), None)
      else ([], Some UnicodeDecodeError)
  | chunk :: chunks' =>
      match utf8_decode st held chunk with
      | None => ([], Some UnicodeDecodeError)
      | Some (text, (st', held')) =>
          let '(output, pendingcr') := newline_decode pendingcr text false in
          let '(lines, partial) := split_lines (decoded_chars +:+ output) in
          let '(more, e) := TextIOWrapper_iter chunks' st' held' pendingcr' partial in
          (lines ++ more, e)
      end
  end.

(** [for line in f_in], for a file of these bytes. *)
Definition TextIOWrapper_lines (bytes : string) : list string * option exn :=
  TextIOWrapper_iter (read1_chunks CHUNK_SIZE CHUNK_SIZE bytes)
    U_accept EmptyString false EmptyString.

(** ** [csv.writer], default (excel) dialect

    delimiter [,], quotechar the double quote, doublequote on, no escapechar,
    lineterminator CR LF, quoting QUOTE_MINIMAL. *)

Definition lineterminator : string := String CR (String LF EmptyString).

(** A character that forces the field into quotes. *)
Definition must_quote (c : ascii) : bool :=
  bool_decide (c = COMMA) || bool_decide (c = DQUOTE)
  || bool_decide (c = CR) || bool_decide (c = LF).

Fixpoint field_quoted (s : string) : bool :=
  match s with
  | EmptyString => false
  | String c s' => must_quote c || field_quoted s'
  end.

(** The characters of the field, a double quote written twice. *)
Fixpoint field_data (s : string) : string :=
  match s with
  | EmptyString => EmptyString
  | String c s' =>
      if bool_decide (c = DQUOTE) then String DQUOTE (String DQUOTE (field_data s'))
      else String c (field_data s')
  end.

Definition quote_if (quoted : bool) (s : string) : string :=
  if quoted then String DQUOTE (s +:+ String DQUOTE EmptyString) else s.

(** [join_append]: add one field to the record under construction;
    [rec] is the record so far and [num_fields] the fields already in it. *)
Definition join_append (st : string * nat) (fld : string) (quoted : bool) : string * nat :=
  let '(rec, num_fields) := st in
  let sep := if decide (0 < num_fields) then String COMMA EmptyString else EmptyString in
  (rec +:+ sep +:+ quote_if (quoted || field_quoted fld) (field_data fld),
   S num_fields).

(** The line that [writerow] passes to the file's [write]. *)
Definition writerow_line (row : Row) : string :=
  let '(rec, num_fields) :=
    foldl (fun st fld => join_append st fld false) (EmptyString, 0) row in
  let '(rec, num_fields) :=
    (* a record made of one empty field is written as a pair of quotes *)
    if bool_decide (0 < num_fields) && bool_decide (rec = EmptyString)
    then join_append (rec, num_fields - 1) EmptyString true
    else (rec, num_fields) in
  rec +:+ lineterminator.

(** ** [csv.reader], default (excel) dialect, not strict

    The reader is fed the lines of the file; it sees the characters of a line
    and then an end-of-line mark.  The dialect has no escapechar, so the
    states that follow an escape character do not occur. *)

Inductive event := Ch (c : ascii) | EOL.

Inductive ParserState :=
  | START_RECORD | START_FIELD | IN_FIELD
  | IN_QUOTED_FIELD | QUOTE_IN_QUOTED_FIELD | EAT_CRNL.

#[global] Instance ParserState_eq_dec : EqDecision ParserState.
Proof. solve_decision. Defined.

Record ReaderObj := mkReader {
  rd_state : ParserState;
  rd_fields : list string;   (* the fields of the record read so far *)
  rd_field : string;         (* the field being read *)
  rd_field_len : N;          (* its length in characters *)
}.

(** [csv.field_size_limit()] *)
Definition field_limit : N := 131072.

Definition parse_reset : ReaderObj := mkReader START_RECORD [] EmptyString 0.

Definition set_state (st : ParserState) (r : ReaderObj) : ReaderObj :=
  mkReader st (rd_fields r) (rd_field r) (rd_field_len r).

Definition parse_save_field (r : ReaderObj) : ReaderObj :=
  mkReader (rd_state r) (rd_fields r ++ [rd_field r]) EmptyString 0.

(** One more byte of the field; the limit is checked where a character
    starts. *)
Definition parse_add_char (c : ascii) (r : ReaderObj) : result ReaderObj :=
  if starts_code_point c then
    if decide (field_limit ≤ rd_field_len r)%N then Raise csv_Error
    else Ok (mkReader (rd_state r) (rd_fields r)
               (rd_field r +:+ String c EmptyString) (rd_field_len r + 1))
  else Ok (mkReader (rd_state r) (rd_fields r)
             (rd_field r +:+ String c EmptyString) (rd_field_len r)).

Definition is_newline (c : ascii) : bool :=
  bool_decide (c = LF) || bool_decide (c = CR).

(** The case [START_FIELD], also reached from [START_RECORD]. *)
Definition parse_start_field (r : ReaderObj) (ev : event) : result ReaderObj :=
  match ev with
  | EOL => Ok (set_state START_RECORD (parse_save_field r))
  | Ch c =>
      if is_newline c then Ok (set_state EAT_CRNL (parse_save_field r))
      else if bool_decide (c = DQUOTE) then Ok (set_state IN_QUOTED_FIELD r)
      else if bool_decide (c = COMMA) then Ok (set_state START_FIELD (parse_save_field r))
      else r' ← parse_add_char c r; Ok (set_state IN_FIELD r')
  end.

Definition parse_process_char (r : ReaderObj) (ev : event) : result ReaderObj :=
  match rd_state r with
  | START_RECORD =>
      match ev with
      | EOL => Ok r
      | Ch c =>
          if is_newline c then Ok (set_state EAT_CRNL r)
          else parse_start_field (set_state START_FIELD r) ev
      end
  | START_FIELD => parse_start_field r ev
  | IN_FIELD =>
      match ev with
      | EOL => Ok (set_state START_RECORD (parse_save_field r))
      | Ch c =>
          if is_newline c then Ok (set_state EAT_CRNL (parse_save_field r))
          else if bool_decide (c = COMMA) then Ok (set_state START_FIELD (parse_save_field r))
          else parse_add_char c r
      end
  | IN_QUOTED_FIELD =>
      match ev with
      | EOL => Ok r
      | Ch c =>
          if bool_decide (c = DQUOTE) then Ok (set_state QUOTE_IN_QUOTED_FIELD r)
          else parse_add_char c r
      end
  | QUOTE_IN_QUOTED_FIELD =>
      match ev with
      | EOL => Ok (set_state START_RECORD (parse_save_field r))
      | Ch c =>
          if bool_decide (c = DQUOTE) then
            r' ← parse_add_char c r; Ok (set_state IN_QUOTED_FIELD r')
          else if bool_decide (c = COMMA) then Ok (set_state START_FIELD (parse_save_field r))
          else if is_newline c then Ok (set_state EAT_CRNL (parse_save_field r))
          else r' ← parse_add_char c r; Ok (set_state IN_FIELD r')
      end
  | EAT_CRNL =>
      match ev with
      | EOL => Ok (set_state START_RECORD r)
      | Ch c => if is_newline c then Ok r else Raise csv_Error
      end
  end.

(** The input is exhausted: a record still open (inside quotes, or with a
    field begun) is returned as it stands, since the dialect is not strict. *)
Definition Reader_end (r : ReaderObj) : list Row :=
  if bool_decide (rd_field_len r ≠ 0%N) || bool_decide (rd_state r = IN_QUOTED_FIELD)
  then [rd_fields (parse_save_field r)]
  else [].

(** The rows the reader yields, and the exception that ends the iteration if
    there is one.  A record is complete when the state is back at
    [START_RECORD] after an end-of-line mark. *)
Fixpoint Reader_iter (r : ReaderObj) (evs : list event) : list Row * option exn :=
  match evs with
  | [] => (Reader_end r, None)
  | ev :: evs' =>
      match parse_process_char r ev with
      | Raise e => ([], Some e)
      | Ok r' =>
          match ev with
          | EOL =>
              if bool_decide (rd_state r' = START_RECORD) then
                let '(rows, e) := Reader_iter parse_reset evs' in
                (rd_fields r' :: rows, e)
              else Reader_iter r' evs'
          | Ch _ => Reader_iter r' evs'
          end
      end
  end.

Fixpoint chars (s : string) : list event :=
  match s with
  | EmptyString => []
  | String c s' => Ch c :: chars s'
  end.

Definition line_events (line : string) : list event := chars line ++ [EOL].

(** [csv.reader] over a text that is all there: the rows of its lines. *)
Definition csv_reader (text : string) : list Row * option exn :=
  Reader_iter parse_reset (concat (line_events <$> readlines text)).

(** The rows the reader yields when the iteration over its lines may end
    with an exception [e]: that exception goes through the reader, and the
    record that was being read is dropped. *)
Fixpoint Reader_lines (r : ReaderObj) (evs : list event) (e : option exn)
  : list Row * option exn :=
  match evs with
  | [] =>
      match e with
      | Some e => ([], Some e)
      | None => (Reader_end r, None)
      end
  | ev :: evs' =>
      match parse_process_char r ev with
      | Raise e' => ([], Some e')
      | Ok r' =>
          match ev with
          | EOL =>
              if bool_decide (rd_state r' = START_RECORD) then
                let '(rows, e') := Reader_lines parse_reset evs' e in
                (rd_fields r' :: rows, e')
              else Reader_lines r' evs' e
          | Ch _ => Reader_lines r' evs' e
          end
      end
  end.

(** [csv.reader(f_in)], for a file of these bytes. *)
Definition csv_reader_file (bytes : string) : list Row * option exn :=
  let '(lines, e) := TextIOWrapper_lines bytes in
  Reader_lines parse_reset (concat (line_events <$> lines)) e.

(** ** The file system and the run *)

Record world := mkWorld {
  disk : gmap string string;          (* path -> bytes of the readable files *)
  seen : list (gmap string string);   (* the earlier disks, latest first *)
  stdout : list string;
}.

(** What the operating system refuses during a run. *)
Record os_faults := mkFaults {
  open_w_ok : bool;                    (* the output file can be created *)
  write_ok : string → string → bool;   (* content so far, data: the write succeeds *)
  replace_ok : bool;                   (* the rename succeeds *)
}.

Definition no_faults : os_faults := mkFaults true (fun _ _ => true) true.

Definition M (A : Type) : Type := world → result A * world.

#[global] Instance M_ret : MRet M := fun A a w => (Ok a, w).
#[global] Instance M_bind : MBind M := fun A B f m w =>
  match m w with
  | (Ok a, w') => f a w'
  | (Raise e, w') => (Raise e, w')
  end.

Definition lift {A} (x : result A) : M A := fun w => (x, w).

Definition set_disk (d : gmap string string) (w : world) : world :=
  mkWorld d (disk w :: seen w) (stdout w).

Section Run.
Variable env : os_faults.

(** [open(path, 'r')]: the bytes of the file. *)
Definition open_r (path : string) : M string := fun w =>
  match disk w !! path with
  | Some bytes => (Ok bytes, w)
  | None => (Raise (OSError SysOpenRead), w)
  end.

(** [open(path, 'w', newline='')]: the file is created or truncated. *)
Definition open_w (path : string) : M unit := fun w =>
  if open_w_ok env then (Ok tt, set_disk (<[path := EmptyString]> (disk w)) w)
  else (Raise (OSError SysOpenWrite), w).

(** [f.write(data)], with [newline='']: the data goes out as it is. *)
Definition file_write (path data : string) : M unit := fun w =>
  let content := default EmptyString (disk w !! path) in
  if write_ok env content data
  then (Ok tt, set_disk (<[path := content +:+ data]> (disk w)) w)
  else (Raise (OSError SysWrite), w).

(** [csv.writer(f_out).writerow(row)] *)
Definition writerow (path : string) (row : Row) : M unit :=
  file_write path (writerow_line row).

(** [os.replace(src, dst)]: one atomic step. *)
Definition os_replace (src dst : string) : M unit := fun w =>
  match disk w !! src with
  | Some bytes =>
      if replace_ok env
      then (Ok tt, set_disk (<[dst := bytes]> (delete src (disk w))) w)
      else (Raise (OSError SysReplace), w)
  | None => (Raise (OSError SysReplace), w)
  end.

Definition print (line : string) : M unit := fun w =>
  (Ok tt, mkWorld (disk w) (seen w) (stdout w ++ [line])).

(** [next(reader)] *)
Definition next (reader : list Row * option exn)
  : result (Row * (list Row * option exn)) :=
  match reader with
  | (row :: rows, e) => Ok (row, (rows, e))
  | ([], Some e) => Raise e
  | ([], None) => Raise StopIteration
  end.

Fixpoint for_each (rows : list Row) (body : Row → M unit) : M unit :=
  match rows with
  | [] => mret tt
  | row :: rows' => _ ← body row; for_each rows' body
  end.

(** [for row in reader: body]: the body runs on the rows the reader yields;
    the exception of the reader, if any, comes after them. *)
Definition for_in (reader : list Row * option exn) (body : Row → M unit) : M unit :=
  _ ← for_each reader.1 body;
  match reader.2 with
  | Some e => lift (Raise e)
  | None => mret tt
  end.

(** The body of the loop. *)
Definition loop_body (row : Row) : M unit :=
  row' ← lift (augment_row row);
  writerow output_file row'.

(** The [with] block: both files are open, the rows go from one to the
    other. *)
Definition with_block : M unit :=
  f_in ← open_r input_file;
  _ ← open_w output_file;
  let reader := csv_reader_file f_in in
  '(header, reader) ← lift (next reader);
  _ ← writerow output_file (augment_header header);
  for_in reader loop_body.

(** The script. *)
Definition main : M unit :=
  _ ← with_block;
  _ ← os_replace output_file input_file;
  print "Updated export_tags.csv with Japanese descriptions.".
End Run.

(** ** The operations of the transform, on whole documents

    The script interleaves reading, augmenting and writing, row by row.
    [load], [augment] and [csv_text] are its three stages taken apart;
    [main_Ok] and [main_no_faults] below show that a run computes their
    composition, followed by the replace step. *)

(** load: the rows of the input file. *)
Definition load (w : world) : result Document :=
  match disk w !! input_file with
  | None => Raise (OSError SysOpenRead)
  | Some bytes =>
      match csv_reader_file bytes with
      | (rows, None) => Ok rows
      | (_, Some e) => Raise e
      end
  end.

Fixpoint augment_rows (rows : list Row) : result (list Row) :=
  match rows with
  | [] => Ok []
  | row :: rows' =>
      row' ← augment_row row;
      rows'' ← augment_rows rows';
      Ok (row' :: rows'')
  end.

(** augment: the header step on the first row, the loop body on the others. *)
Definition augment (doc : Document) : result Document :=
  match doc with
  | [] => Raise StopIteration
  | header :: rows =>
      rows' ← augment_rows rows;
      Ok (augment_header header :: rows')
  end.

(** write: the bytes of a document, one [writerow] per row. *)
Fixpoint csv_text (doc : Document) : string :=
  match doc with
  | [] => EmptyString
  | row :: doc' => writerow_line row +:+ csv_text doc'
  end.

(** A disk that holds the input file only. *)
Definition disk_with (bytes : string) : world :=
  mkWorld {[ input_file := bytes ]} [] [].

(** ** Vocabulary of the proofs *)

(** [keeps p w w']: from [w] to [w'] the file at [p] was never touched. *)
Definition keeps (p : string) (w w' : world) : Prop :=
  disk w' !! p = disk w !! p ∧
  ∃ new, seen w' = new ++ seen w ∧ Forall (fun d => d !! p = disk w !! p) new.

Definition M_keeps {A} (p : string) (m : M A) : Prop :=
  ∀ w r w', m w = (r, w') → keeps p w w'.

(** The three cases of the loop body. *)
Inductive augment_row_spec (row : Row) : result Row → Prop :=
  | ARS_short : length row < 2 → augment_row_spec row (Raise IndexError)
  | ARS_append name desc_en :
      row = [name; desc_en] →
      augment_row_spec row (Ok [name; desc_en; dict_get translations name ""])
  | ARS_overwrite name desc_en old rest :
      row = name :: desc_en :: old :: rest →
      augment_row_spec row (Ok (name :: desc_en :: dict_get translations name "" :: rest)).

(** The events the reader sees for a text: its characters, an end-of-line
    mark after each LF. *)
Fixpoint marks (s : string) : list event :=
  match s with
  | EmptyString => []
  | String c s' => Ch c :: (if bool_decide (c = LF) then EOL :: marks s' else marks s')
  end.

(** The text ends inside a line (it is not empty and its last character is
    not LF). *)
Fixpoint open_line (s : string) : bool :=
  match s with
  | EmptyString => false
  | String c s' =>
      match s' with
      | EmptyString => negb (bool_decide (c = LF))
      | _ => open_line s'
      end
  end.

Fixpoint all_chars (p : ascii → bool) (s : string) : bool :=
  match s with
  | EmptyString => true
  | String c s' => p c && all_chars p s'
  end.

Definition no_CR (s : string) : Prop :=
  all_chars (fun c => negb (bool_decide (c = CR))) s = true.

(** A field that the reader can have produced from a decoded text, and that
    it reads back from what the writer makes of it. *)
Record clean (f : string) : Prop := mkClean {
  clean_no_CR : no_CR f;
  clean_len : (str_len f ≤ field_limit)%N;
  clean_utf8 : utf8_run U_accept f = U_accept;
}.

(** A field as the writer puts it in a record. *)
Definition quote_field (f : string) : string :=
  quote_if (field_quoted f) (field_data f).

(** A record as the writer builds it, without the line terminator. *)
Definition row_body (row : Row) : string :=
  match row with
  | [f] => if bool_decide (f = EmptyString) then String DQUOTE (String DQUOTE EmptyString)
           else quote_field f
  | _ => String.concat (String COMMA EmptyString) (quote_field <$> row)
  end.

(** The text of a document with LF in place of the line terminator. *)
Fixpoint lf_text (doc : Document) : string :=
  match doc with
  | [] => EmptyString
  | row :: doc' => row_body row +:+ String LF (lf_text doc')
  end.

(** What holds of the reader between two events. *)
Record reader_inv (r : ReaderObj) : Prop := mkReaderInv {
  inv_fields : Forall clean (rd_fields r);
  inv_no_CR : no_CR (rd_field r);
  inv_len : rd_field_len r = str_len (rd_field r);
  inv_limit : (str_len (rd_field r) ≤ field_limit)%N;
  inv_empty :
    rd_state r = START_RECORD ∨ rd_state r = START_FIELD ∨ rd_state r = EAT_CRNL →
    rd_field r = EmptyString;
}.

Definition empty_state (st : ParserState) : Prop :=
  st = START_RECORD ∨ st = START_FIELD ∨ st = EAT_CRNL.

(** The characters that the reader and the writer treat apart. *)
Definition special (c : ascii) : Prop := c = LF ∨ c = CR ∨ c = COMMA ∨ c = DQUOTE.

(** What one character, followed by [rest], leaves behind. *)
Definition step_post (c : ascii) (rest : string) (r' : ReaderObj) : Prop :=
  reader_inv r' ∧
  utf8_run U_accept (rd_field r' +:+ rest) = U_accept ∧
  (c = LF → rd_state r' = EAT_CRNL ∨ rd_state r' = IN_QUOTED_FIELD).

(** The fields after the first, each behind its comma. *)
Fixpoint prefixed (fs : list string) : string :=
  match fs with
  | [] => EmptyString
  | f :: fs' => String COMMA (quote_field f +:+ prefixed fs')
  end.

Definition plain (c : ascii) : bool := negb (must_quote c).

Definition cleanb (v : string) : bool :=
  all_chars (fun c => negb (bool_decide (c = CR))) v
  && N.leb (str_len v) field_limit
  && utf8_valid v.

(** The text of a list of lines, or the bytes of a list of chunks. *)
Fixpoint join (ss : list string) : string :=
  match ss with
  | [] => EmptyString
  | s :: ss' => s +:+ join ss'
  end.

(** The CR that the newline decoder keeps back. *)
Definition kept_CR (pendingcr : bool) : string :=
  if pendingcr then String CR EmptyString else EmptyString.

(** ** Sample files *)

Definition nl : string := String LF EmptyString.
Definition dq : string := String DQUOTE EmptyString.

(** A header and the two rows of the examples. *)
Definition sample_csv : string :=
  "Name,DescriptionEn" +:+ nl
  +:+ "^root^," +:+ dq +:+ "Writes the relative path to the site root." +:+ dq +:+ nl
  +:+ "^unknownTag^," +:+ dq +:+ "Some description" +:+ dq +:+ nl.

(** A header of one column. *)
Definition narrow_header_csv : string :=
  "Name" +:+ nl +:+ "^root^,Writes the relative path to the site root." +:+ nl.

(** A data row of one field. *)
Definition short_row_csv : string :=
  "Name,DescriptionEn" +:+ nl +:+ "^root^" +:+ nl.

(** A quoted field that is never closed. *)
Definition unbalanced_csv : string :=
  "Name,DescriptionEn" +:+ nl +:+ "^root^," +:+ dq +:+ "Writes the relative path" +:+ nl.

(** Three columns already, nothing to translate, lines ending in LF. *)
Definition lf_csv : string :=
  "Name,DescriptionEn,DescriptionJa" +:+ nl +:+ "^unknownTag^,Some description," +:+ nl.

(** The same rows with the lines ending in CR LF. *)
Definition crlf_csv : string :=
  "Name,DescriptionEn,DescriptionJa" +:+ lineterminator
  +:+ "^unknownTag^,Some description," +:+ lineterminator.

(** A data row of one field, then a code point cut short by the end of the
    file. *)
Definition cut_short_csv : string :=
  "Name,DescriptionEn" +:+ nl +:+ "^root^" +:+ nl +:+ String (chr 227) EmptyString.

(** A good row, then a row that ends in a code point cut short by the end
    of the file. *)
Definition cut_short_after_rows_csv : string :=
  "Name,DescriptionEn" +:+ nl
  +:+ "^root^,Writes the relative path to the site root." +:+ nl
  +:+ "^else^," +:+ String (chr 227) (String (chr 129) EmptyString).

(** A byte that no UTF-8 text holds, in the second row. *)
Definition bad_byte_csv : string :=
  "Name,DescriptionEn" +:+ nl
  +:+ "^root^,Writes the relative path to the site root." +:+ nl
  +:+ "^else^," +:+ String (chr 255) EmptyString +:+ nl.

Fixpoint repeat_string (n : nat) (s : string) : string :=
  match n with
  | 0 => EmptyString
  | S n' => s +:+ repeat_string n' s
  end.

(** The same byte after three hundred rows, in the second chunk of the
    file. *)
Definition late_bad_byte_csv : string :=
  "Name,DescriptionEn" +:+ nl
  +:+ repeat_string 300 ("^else^,Begins the alternative branch." +:+ nl)
  +:+ String (chr 255) EmptyString.

(** An operating system on which the rename fails. *)
Definition replace_fails : os_faults := mkFaults true (fun _ _ => true) false.


(** ** Vocabulary of the further properties *)

(** A computation that prints nothing. *)
Definition M_quiet {A} (m : M A) : Prop :=
  ∀ w r w', m w = (r, w') → stdout w' = stdout w.

(** A field with a CR between two letters, and what it is read back as. *)
Definition cr_field : string := "a" +:+ String CR "b".
Definition lf_field : string := "a" +:+ String LF "b".

(** A short row after a good one. *)
Definition late_short_row_csv : string :=
  "Name,DescriptionEn" +:+ nl
  +:+ "^root^,Writes the relative path to the site root." +:+ nl
  +:+ "^url( item )^" +:+ nl
  +:+ "^else^,Begins the alternative branch." +:+ nl.

(** The sample file with CR LF line ends and no quotes. *)
Definition sample_crlf_csv : string :=
  "Name,DescriptionEn" +:+ lineterminator
  +:+ "^root^,Writes the relative path to the site root." +:+ lineterminator
  +:+ "^unknownTag^,Some description" +:+ lineterminator.

(** * Properties *)

(** ** Lists and the loop body *)



(** The loop body, case by case on the length of the row. *)
Lemma augment_row_short (row : Row) :
  length row < 2 → augment_row row = Raise IndexError.
Proof.
  intros H. unfold augment_row.
  destruct row as [|name [|desc_en row]]; simpl in *; try done. lia.
Qed.

Lemma augment_row_append (name desc_en : string) :
  augment_row [name; desc_en] = Ok [name; desc_en; dict_get translations name ""].
Proof. reflexivity. Qed.

Lemma augment_row_overwrite (name desc_en old : string) (rest : Row) :
  augment_row (name :: desc_en :: old :: rest)
  = Ok (name :: desc_en :: dict_get translations name "" :: rest).
Proof.
  unfold augment_row. simpl. unfold setitem. simpl.
  repeat case_decide; try lia. reflexivity.
Qed.

Lemma augment_rowP (row : Row) : augment_row_spec row (augment_row row).
Proof.
  destruct row as [|name [|desc_en [|old rest]]].
  - rewrite augment_row_short by (simpl; lia). constructor. simpl; lia.
  - rewrite augment_row_short by (simpl; lia). constructor. simpl; lia.
  - rewrite augment_row_append. by econstructor.
  - rewrite augment_row_overwrite. by econstructor.
Qed.

Lemma augment_rows_Ok (rows out : list Row) :
  augment_rows rows = Ok out ↔ Forall2 (fun row row' => augment_row row = Ok row') rows out.
Proof.
  revert out. induction rows as [|row rows IH]; intros out; simpl.
  - split; [intros [= <-]; constructor | by inversion 1].
  - destruct (augment_row row) as [row'|e] eqn:E; simpl.
    + destruct (augment_rows rows) as [rows'|e] eqn:E'; simpl.
      * split.
        -- intros [= <-]. constructor; [done | by apply IH].
        -- inversion 1; subst. rewrite E in *. simplify_eq.
           f_equal. f_equal. apply IH in H4. congruence.
      * split; [done |]. inversion 1; subst. apply IH in H4. congruence.
    + split; [done |]. inversion 1; subst. congruence.
Qed.

Lemma augment_rows_total (rows : list Row) :
  Forall (fun row => 2 ≤ length row) rows → ∃ out, augment_rows rows = Ok out.
Proof.
  induction 1 as [|row rows Hrow _ [out IH]]; simpl; [by eexists |].
  destruct (augment_rowP row) as [Hs | ? ? -> | ? ? ? ? ->]; [lia | |];
    rewrite IH; simpl; by eexists.
Qed.

Lemma augment_rows_short (rows : list Row) :
  Exists (fun row => length row < 2) rows → augment_rows rows = Raise IndexError.
Proof.
  induction rows as [|row rows IH]; [by inversion 1 |]. intros H. simpl.
  destruct (augment_rowP row) as [Hs | ? ? -> | ? ? ? ? ->]; simpl; [done | |].
  all: inversion H; subst; [simpl in *; lia |]; by rewrite IH.
Qed.

(** ** Strings *)

Lemma string_app_nil_l (s : string) : "" +:+ s = s.
Proof. reflexivity. Qed.

Lemma string_app_cons (c : ascii) (s1 s2 : string) :
  String c s1 +:+ s2 = String c (s1 +:+ s2).
Proof. reflexivity. Qed.

Lemma string_app_nil_r (s : string) : s +:+ "" = s.
Proof. induction s as [|c s IH]; [done | by rewrite string_app_cons, IH]. Qed.

Lemma string_app_assoc (s1 s2 s3 : string) : (s1 +:+ s2) +:+ s3 = s1 +:+ s2 +:+ s3.
Proof. induction s1 as [|c s1 IH]; [done | by rewrite !string_app_cons, IH]. Qed.



(** ** UTF-8 validity *)

Lemma utf8_run_app (st : utf8_state) (a b : string) :
  utf8_run st (a +:+ b) = utf8_run (utf8_run st a) b.
Proof.
  revert st. induction a as [|c a IH]; intros st; [done |].
  rewrite string_app_cons. simpl. apply IH.
Qed.

Lemma utf8_run_cons (st : utf8_state) (c : ascii) (s : string) :
  utf8_run st (String c s) = utf8_run (utf8_step st c) s.
Proof. reflexivity. Qed.

Lemma utf8_run_reject (s : string) : utf8_run U_reject s = U_reject.
Proof. induction s as [|c s IH]; [done | exact IH]. Qed.

Lemma utf8_step_special (st : utf8_state) (c : ascii) :
  special c →
  utf8_step st c = if decide (st = U_accept) then U_accept else U_reject.
Proof. intros [-> | [-> | [-> | ->]]]; by destruct st. Qed.


(** A special character stands between code points: a valid text splits
    there into two valid texts. *)
Lemma utf8_split (a b : string) (c : ascii) :
  special c →
  utf8_run U_accept (a +:+ String c b) = U_accept →
  utf8_run U_accept a = U_accept ∧ utf8_run U_accept b = U_accept.
Proof.
  intros Hc. rewrite utf8_run_app, utf8_run_cons, (utf8_step_special _ _ Hc).
  case_decide as E; [by rewrite E |]. by rewrite utf8_run_reject.
Qed.

Lemma utf8_special_inv (st : utf8_state) (c : ascii) (s : string) :
  special c → utf8_run st (String c s) = U_accept →
  st = U_accept ∧ utf8_run U_accept s = U_accept.
Proof.
  intros Hc. rewrite utf8_run_cons, (utf8_step_special _ _ Hc).
  case_decide as E; [done |]. by rewrite utf8_run_reject.
Qed.

Lemma utf8_join (a b : string) :
  utf8_run U_accept a = U_accept → utf8_run U_accept b = U_accept →
  utf8_run U_accept (a +:+ b) = U_accept.
Proof. intros Ha Hb. by rewrite utf8_run_app, Ha. Qed.

Lemma utf8_special (c : ascii) (s : string) :
  special c → utf8_run U_accept (String c s) = utf8_run U_accept s.
Proof. intros Hc. by rewrite utf8_run_cons, (utf8_step_special _ _ Hc). Qed.

Lemma utf8_valid_true (s : string) : utf8_valid s = true ↔ utf8_run U_accept s = U_accept.
Proof. unfold utf8_valid. apply bool_decide_eq_true. Qed.

(** ** Newline translation *)

Lemma all_chars_app p (a b : string) :
  all_chars p (a +:+ b) = all_chars p a && all_chars p b.
Proof.
  induction a as [|c a IH]; [done |].
  rewrite string_app_cons. simpl. by rewrite IH, andb_assoc.
Qed.

Lemma translate_newlines_no_CR (after_cr : bool) (s : string) :
  no_CR (translate_newlines after_cr s).
Proof.
  unfold no_CR. revert after_cr. induction s as [|c s IH]; intros after_cr; [done |].
  simpl. case_bool_decide as E1; simpl; [apply IH |].
  case_bool_decide as E2; simpl.
  - destruct after_cr; simpl; [apply IH |].
    rewrite IH. by rewrite bool_decide_eq_false_2.
  - rewrite IH. by rewrite bool_decide_eq_false_2.
Qed.


(** The writer's line terminator comes back as one LF. *)
Lemma translate_newlines_line (a b : string) :
  no_CR a →
  translate_newlines false (a +:+ lineterminator +:+ b)
  = a +:+ String LF (translate_newlines false b).
Proof.
  unfold no_CR. induction a as [|c a IH].
  - intros _. by rewrite !string_app_nil_l.
  - rewrite !string_app_cons. simpl.
    intros [Hc Hs]%andb_true_iff. apply negb_true_iff in Hc. rewrite Hc. simpl.
    rewrite andb_false_r. by rewrite IH.
Qed.

(** Translation keeps a valid text valid. *)
Lemma translate_newlines_valid (after_cr : bool) (st : utf8_state) (s : string) :
  utf8_run st s = U_accept →
  utf8_run st (translate_newlines after_cr s) = U_accept.
Proof.
  revert after_cr st. induction s as [|c s IH]; intros after_cr st; [done |].
  intros H. cbn [translate_newlines].
  case_bool_decide as E1.
  - subst c. apply utf8_special_inv in H as [-> H]; [|unfold special; auto].
    rewrite utf8_special by (unfold special; auto). by apply IH.
  - case_bool_decide as E2.
    + subst c. apply utf8_special_inv in H as [-> H]; [|unfold special; auto].
      destruct after_cr; cbn [andb]; [by apply IH |].
      rewrite utf8_special by (unfold special; auto). by apply IH.
    + cbn [andb]. rewrite utf8_run_cons in *. by apply IH.
Qed.
(** ** Reading the file chunk by chunk *)

Lemma read1_chunks_join (size room : nat) (bytes : string) :
  join (read1_chunks size room bytes) = bytes.
Proof.
  revert room. induction bytes as [|b bytes IH]; intros room; [done |].
  cbn [read1_chunks]. destruct room as [|[|room]].
  - cbn [join]. by rewrite IH.
  - cbn [join]. by rewrite IH.
  - specialize (IH (S room)).
    destruct (read1_chunks size (S room) bytes) as [|chunk chunks]; cbn [join] in *.
    + by rewrite <- IH.
    + by rewrite string_app_cons, IH.
Qed.

(** The state the decoder is left in is the state of the automaton. *)
Lemma utf8_decode_state (chunk : string) (st st' : utf8_state) (held held' text : string) :
  utf8_decode st held chunk = Some (text, (st', held')) → st' = utf8_run st chunk.
Proof.
  revert st st' held held' text.
  induction chunk as [|b chunk IH]; intros st st' held held' text.
  - by intros [= _ <- _].
  - cbn [utf8_decode utf8_run].
    destruct (utf8_step st b) eqn:E; try apply IH.
    + destruct (utf8_decode U_accept "" chunk) as [[text' [st1 held1]]|] eqn:E'; [|done].
      intros [= _ <- _]. exact (IH _ _ _ _ _ E').
    + destruct (truncated_surrogate st b chunk); [|done].
      intros [= _ <- _]. by rewrite utf8_run_reject.
Qed.

(** The decoder raises only when the automaton rejects a byte of the
    chunk. *)
Lemma utf8_decode_None (chunk : string) (st : utf8_state) (held : string) :
  utf8_decode st held chunk = None → utf8_run st chunk = U_reject.
Proof.
  revert st held. induction chunk as [|b chunk IH]; intros st held; [done |].
  cbn [utf8_decode utf8_run].
  destruct (utf8_step st b) eqn:E; try apply IH.
  - destruct (utf8_decode U_accept "" chunk) as [[text' [st1 held1]]|] eqn:E'; [done |].
    intros _. by eapply IH.
  - intros _. apply utf8_run_reject.
Qed.

(** What is decoded and what is held back make up the bytes taken in. *)
Lemma utf8_decode_bytes (chunk : string) (st st' : utf8_state) (held held' text : string) :
  utf8_decode st held chunk = Some (text, (st', held')) →
  text +:+ held' = held +:+ chunk.
Proof.
  revert st st' held held' text.
  induction chunk as [|b chunk IH]; intros st st' held held' text.
  - intros [= <- _ <-]. by rewrite string_app_nil_r.
  - cbn [utf8_decode].
    assert (∀ st1, utf8_decode st1 (held +:+ String b "") chunk = Some (text, (st', held')) →
                   text +:+ held' = held +:+ String b chunk) as Hgo.
    { intros st1 H. apply IH in H. by rewrite H, string_app_assoc. }
    destruct (utf8_step st b) eqn:E; try apply Hgo.
    + destruct (utf8_decode U_accept "" chunk) as [[text' [st1 held1]]|] eqn:E'; [|done].
      intros [= <- <- <-]. apply IH in E'.
      by rewrite string_app_assoc, string_app_cons, E'.
    + unfold truncated_surrogate.
      destruct (bool_decide (st = U_ed)), (byte_between 160 191 b); cbn [andb]; try done.
      case_bool_decide as Hrest; [|done]. intros [= <- _ <-]. by subst chunk.
Qed.

(** Nothing is held back at a code point boundary. *)
Lemma utf8_decode_held (chunk : string) (st st' : utf8_state) (held held' text : string) :
  utf8_decode st held chunk = Some (text, (st', held')) →
  (st = U_accept → held = "") → st' = U_accept → held' = "".
Proof.
  revert st st' held held' text.
  induction chunk as [|b chunk IH]; intros st st' held held' text.
  - intros [= _ <- <-]. auto.
  - cbn [utf8_decode].
    destruct (utf8_step st b) eqn:E;
      try (intros H _; by apply (IH _ _ _ _ _ H)).
    + destruct (utf8_decode U_accept "" chunk) as [[text' [st1 held1]]|] eqn:E'; [|done].
      intros [= _ <- <-] _. by apply (IH _ _ _ _ _ E').
    + destruct (truncated_surrogate st b chunk); [|done]. by intros [= _ <- _] _ [=].
Qed.

(** *** The newline decoder *)

Lemma ends_with_CR_drop_last (s : string) :
  ends_with_CR s = true → s = drop_last s +:+ String CR "".
Proof.
  induction s as [|c s IH]; [done |]. cbn [ends_with_CR drop_last].
  destruct s as [|c' s'].
  - by intros ->%bool_decide_eq_true.
  - intros H. by rewrite string_app_cons, <- IH.
Qed.

Lemma translate_newlines_CR (after_cr : bool) (s : string) :
  translate_newlines after_cr (String CR s) = translate_newlines false (String CR s).
Proof. reflexivity. Qed.

(** Before a CR the text can be cut: what precedes is translated on its
    own. *)
Lemma translate_newlines_app_CR (after_cr : bool) (a b : string) :
  translate_newlines after_cr (a +:+ String CR b)
  = translate_newlines after_cr a +:+ translate_newlines false (String CR b).
Proof.
  revert after_cr. induction a as [|c a IH]; intros after_cr.
  - by rewrite !string_app_nil_l.
  - rewrite string_app_cons. cbn [translate_newlines].
    case_bool_decide; [by rewrite IH |].
    destruct (bool_decide (c = LF) && after_cr); by rewrite IH.
Qed.

(** So it can after a character that is not a CR. *)
Lemma translate_newlines_app (after_cr : bool) (a b : string) :
  ends_with_CR a = false → a ≠ "" ∨ after_cr = false →
  translate_newlines after_cr (a +:+ b)
  = translate_newlines after_cr a +:+ translate_newlines false b.
Proof.
  revert after_cr. induction a as [|c a IH]; intros after_cr Hend Hne.
  - destruct Hne as [? | ->]; [done |]. by rewrite !string_app_nil_l.
  - rewrite string_app_cons. cbn [translate_newlines].
    destruct a as [|c' a'].
    + cbn [ends_with_CR] in Hend. rewrite Hend, !string_app_nil_l.
      cbn [translate_newlines].
      by destruct (bool_decide (c = LF) && after_cr).
    + change (ends_with_CR (String c (String c' a'))) with (ends_with_CR (String c' a'))
        in Hend.
      case_bool_decide; [rewrite IH by auto; done |].
      destruct (bool_decide (c = LF) && after_cr); rewrite IH by auto; done.
Qed.

(** One call of the newline decoder: what it returns and the CR it keeps
    back are the translation of what it was given. *)
Lemma newline_decode_spec (pendingcr : bool) (text rest : string) :
  translate_newlines false (kept_CR pendingcr +:+ text +:+ rest)
  = (newline_decode pendingcr text false).1
    +:+ translate_newlines false (kept_CR (newline_decode pendingcr text false).2 +:+ rest).
Proof.
  unfold newline_decode. cbn [orb negb andb].
  assert (∀ o, translate_newlines false (o +:+ rest)
               = (let '(output, pendingcr) :=
                    if ends_with_CR o then (drop_last o, true) else (o, false) in
                  (translate_newlines false output, pendingcr)).1
                 +:+ translate_newlines false
                       (kept_CR (let '(output, pendingcr) :=
                                   if ends_with_CR o then (drop_last o, true) else (o, false) in
                                 (translate_newlines false output, pendingcr)).2 +:+ rest))
    as Hstrip.
  { intros o. destruct (ends_with_CR o) eqn:E; cbn [fst snd kept_CR].
    - rewrite (ends_with_CR_drop_last o E) at 1.
      by rewrite string_app_assoc, string_app_cons, string_app_nil_l,
        translate_newlines_app_CR.
    - rewrite string_app_nil_l. apply translate_newlines_app; auto. }
  destruct pendingcr; cbn [kept_CR andb].
  - case_bool_decide as E; cbn [negb].
    + subst text. cbn [ends_with_CR fst snd kept_CR]. by rewrite !string_app_nil_l.
    + rewrite string_app_cons, string_app_nil_l.
      rewrite <- string_app_cons. apply Hstrip.
  - rewrite string_app_nil_l. apply Hstrip.
Qed.

Lemma newline_decode_final (pendingcr : bool) :
  newline_decode pendingcr "" true
  = (translate_newlines false (kept_CR pendingcr), false).
Proof. by destruct pendingcr. Qed.

(** *** Lines *)

Lemma split_lines_readlines (a b : string) :
  readlines (a +:+ b) = (split_lines a).1 ++ readlines ((split_lines a).2 +:+ b).
Proof.
  induction a as [|c a IH]; [done |].
  rewrite string_app_cons. cbn [readlines split_lines].
  destruct (split_lines a) as [lines partial]. cbn [fst snd] in IH.
  case_bool_decide; cbn [fst snd]; [by rewrite IH |].
  rewrite IH. destruct lines as [|l ls]; cbn [fst snd app]; [|done].
  rewrite string_app_cons. cbn [readlines]. by rewrite bool_decide_eq_false_2 by done.
Qed.

(** A file that is valid UTF-8 yields, whatever the chunks it is read in,
    the lines of its text. *)
Lemma TextIOWrapper_iter_valid (chunks : list string) (st : utf8_state) (held : string)
    (pendingcr : bool) (decoded_chars : string) :
  (st = U_accept → held = "") →
  utf8_run st (join chunks) = U_accept →
  TextIOWrapper_iter chunks st held pendingcr decoded_chars
  = (readlines (decoded_chars
                +:+ translate_newlines false (kept_CR pendingcr +:+ held +:+ join chunks)),
     None).
Proof.
  revert st held pendingcr decoded_chars.
  induction chunks as [|chunk chunks IH]; intros st held pendingcr decoded Hheld Hrun.
  - cbn [join utf8_run] in *. cbn [TextIOWrapper_iter].
    rewrite bool_decide_eq_true_2 by done.
    rewrite newline_decode_final, (Hheld Hrun). by rewrite !string_app_nil_r.
  - cbn [join] in *. cbn [TextIOWrapper_iter]. rewrite utf8_run_app in Hrun.
    destruct (utf8_decode st held chunk) as [[text [st' held']]|] eqn:Hdec.
    + pose proof (utf8_decode_state _ _ _ _ _ _ Hdec) as ->.
      pose proof (utf8_decode_bytes _ _ _ _ _ _ Hdec) as Hbytes.
      pose proof (utf8_decode_held _ _ _ _ _ _ Hdec Hheld) as Hheld'.
      pose proof (newline_decode_spec pendingcr text (held' +:+ join chunks)) as Hnl.
      destruct (newline_decode pendingcr text false) as [output pendingcr'].
      cbn [fst snd] in Hnl.
      pose proof (split_lines_readlines (decoded +:+ output)
                    (translate_newlines false
                       (kept_CR pendingcr' +:+ held' +:+ join chunks))) as Hsplit.
      destruct (split_lines (decoded +:+ output)) as [lines partial].
      cbn [fst snd] in Hsplit.
      rewrite (IH _ held' pendingcr' partial Hheld' Hrun).
      rewrite <- Hsplit, string_app_assoc, <- Hnl.
      by rewrite <- (string_app_assoc held chunk), <- Hbytes, string_app_assoc.
    + apply utf8_decode_None in Hdec. by rewrite Hdec, utf8_run_reject in Hrun.
Qed.

(** A file that is not valid UTF-8 ends the iteration with a decoding
    error. *)
Lemma TextIOWrapper_iter_invalid (chunks : list string) (st : utf8_state) (held : string)
    (pendingcr : bool) (decoded_chars : string) :
  utf8_run st (join chunks) ≠ U_accept →
  (TextIOWrapper_iter chunks st held pendingcr decoded_chars).2 = Some UnicodeDecodeError.
Proof.
  revert st held pendingcr decoded_chars.
  induction chunks as [|chunk chunks IH]; intros st held pendingcr decoded Hrun.
  - cbn [join utf8_run] in *. cbn [TextIOWrapper_iter].
    by rewrite bool_decide_eq_false_2 by done.
  - cbn [join] in *. cbn [TextIOWrapper_iter]. rewrite utf8_run_app in Hrun.
    destruct (utf8_decode st held chunk) as [[text [st' held']]|] eqn:Hdec; [|done].
    pose proof (utf8_decode_state _ _ _ _ _ _ Hdec) as ->.
    destruct (newline_decode pendingcr text false) as [output pendingcr'].
    destruct (split_lines (decoded +:+ output)) as [lines partial].
    specialize (IH _ held' pendingcr' partial Hrun).
    destruct (TextIOWrapper_iter chunks _ held' pendingcr' partial) as [more e].
    exact IH.
Qed.

Lemma TextIOWrapper_iter_Raise (chunks : list string) (st : utf8_state) (held : string)
    (pendingcr : bool) (decoded_chars : string) (e : exn) :
  (TextIOWrapper_iter chunks st held pendingcr decoded_chars).2 = Some e →
  e = UnicodeDecodeError.
Proof.
  revert st held pendingcr decoded_chars.
  induction chunks as [|chunk chunks IH]; intros st held pendingcr decoded.
  - cbn [TextIOWrapper_iter]. case_bool_decide; [|by intros [= <-]].
    by destruct (newline_decode pendingcr "" true).
  - cbn [TextIOWrapper_iter].
    destruct (utf8_decode st held chunk) as [[text [st' held']]|]; [|by intros [= <-]].
    destruct (newline_decode pendingcr text false) as [output pendingcr'].
    destruct (split_lines (decoded +:+ output)) as [lines partial].
    specialize (IH st' held' pendingcr' partial).
    destruct (TextIOWrapper_iter chunks _ held' pendingcr' partial) as [more e'].
    exact IH.
Qed.

Lemma TextIOWrapper_lines_valid (bytes : string) :
  utf8_valid bytes = true →
  TextIOWrapper_lines bytes = (readlines (universal_newlines bytes), None).
Proof.
  intros Hv%utf8_valid_true. unfold TextIOWrapper_lines.
  rewrite TextIOWrapper_iter_valid; rewrite ?read1_chunks_join; done.
Qed.

Lemma TextIOWrapper_lines_invalid (bytes : string) :
  utf8_valid bytes = false →
  (TextIOWrapper_lines bytes).2 = Some UnicodeDecodeError.
Proof.
  intros Hv. apply TextIOWrapper_iter_invalid. rewrite read1_chunks_join.
  intros H%utf8_valid_true. congruence.
Qed.

Lemma TextIOWrapper_lines_Raise (bytes : string) (e : exn) :
  (TextIOWrapper_lines bytes).2 = Some e →
  e = UnicodeDecodeError ∧ utf8_valid bytes = false.
Proof.
  intros H. split; [by eapply TextIOWrapper_iter_Raise |].
  destruct (utf8_valid bytes) eqn:Hv; [|done].
  by rewrite TextIOWrapper_lines_valid in H.
Qed.

(** *** The reader over the lines of the file *)

Lemma parse_add_char_Raise (c : ascii) (r : ReaderObj) (e : exn) :
  parse_add_char c r = Raise e → e = csv_Error.
Proof.
  unfold parse_add_char.
  destruct (starts_code_point c); [case_decide |]; by intros [=].
Qed.

(** The exceptions of the reader are csv errors. *)
Lemma parse_process_char_Raise (r : ReaderObj) (ev : event) (e : exn) :
  parse_process_char r ev = Raise e → e = csv_Error.
Proof.
  unfold parse_process_char, parse_start_field.
  destruct (rd_state r), ev as [c|]; try (by intros [=]);
    repeat match goal with
           | |- context [if ?b then _ else _] => destruct b
           end;
    try (by intros [=]);
    try (by apply parse_add_char_Raise);
    try (destruct (parse_add_char c _) eqn:E; [by intros [=] |];
         intros [= <-]; by eapply parse_add_char_Raise).
Qed.

Lemma Reader_iter_Raise (evs : list event) (r : ReaderObj) (e : exn) :
  (Reader_iter r evs).2 = Some e → e = csv_Error.
Proof.
  revert r. induction evs as [|ev evs IH]; intros r; [done |]. cbn [Reader_iter].
  destruct (parse_process_char r ev) as [r'|e'] eqn:E.
  - destruct ev; [apply IH |]. case_bool_decide; [|apply IH].
    destruct (Reader_iter parse_reset evs) as [rows e''] eqn:E'. simpl.
    intros ->. apply (IH parse_reset). by rewrite E'.
  - intros [= <-]. by eapply parse_process_char_Raise.
Qed.

(** When the lines end normally, the reader is the reader of a text. *)
Lemma Reader_lines_None (evs : list event) (r : ReaderObj) :
  Reader_lines r evs None = Reader_iter r evs.
Proof.
  revert r. induction evs as [|ev evs IH]; intros r; [done |].
  cbn [Reader_lines Reader_iter].
  destruct (parse_process_char r ev) as [r'|e']; [|done].
  destruct ev; [apply IH |]. case_bool_decide; [|apply IH]. by rewrite IH.
Qed.

(** When they end with an exception, the reader ends with it, or with its
    own exception if it raises before. *)
Lemma Reader_lines_Some (evs : list event) (r : ReaderObj) (e : exn) :
  (Reader_lines r evs (Some e)).2
  = Some (default e (Reader_iter r evs).2).
Proof.
  revert r. induction evs as [|ev evs IH]; intros r; [done |].
  cbn [Reader_lines Reader_iter].
  destruct (parse_process_char r ev) as [r'|e']; [|done].
  destruct ev; [apply IH |]. case_bool_decide; [|apply IH].
  specialize (IH parse_reset).
  destruct (Reader_lines parse_reset evs (Some e)) as [rows1 e1].
  destruct (Reader_iter parse_reset evs) as [rows2 e2]. exact IH.
Qed.

Lemma csv_reader_file_valid (bytes : string) :
  utf8_valid bytes = true →
  csv_reader_file bytes = csv_reader (universal_newlines bytes).
Proof.
  intros Hv. unfold csv_reader_file. rewrite TextIOWrapper_lines_valid by done.
  apply Reader_lines_None.
Qed.

Lemma csv_reader_file_invalid (bytes : string) :
  utf8_valid bytes = false →
  (csv_reader_file bytes).2 = Some UnicodeDecodeError ∨
  (csv_reader_file bytes).2 = Some csv_Error.
Proof.
  intros Hv%TextIOWrapper_lines_invalid. unfold csv_reader_file.
  destruct (TextIOWrapper_lines bytes) as [lines e]. cbn [snd] in Hv. subst e.
  rewrite Reader_lines_Some.
  destruct (Reader_iter parse_reset _) as [rows [e|]] eqn:E; cbn [snd default]; [|by left].
  right. f_equal. eapply Reader_iter_Raise. by rewrite E.
Qed.

Lemma csv_reader_file_Raise (bytes : string) (e : exn) :
  (csv_reader_file bytes).2 = Some e →
  e = csv_Error ∨ (e = UnicodeDecodeError ∧ utf8_valid bytes = false).
Proof.
  destruct (utf8_valid bytes) eqn:Hv.
  - rewrite csv_reader_file_valid by done. unfold csv_reader.
    intros ?%Reader_iter_Raise. by left.
  - destruct (csv_reader_file_invalid bytes Hv) as [-> | ->]; intros [= <-]; auto.
Qed.
(** ** The run: what it does to the disk *)

Lemma paths_distinct : input_file ≠ output_file.
Proof. discriminate. Qed.

Lemma keeps_refl p w : keeps p w w.
Proof. split; [done |]. exists []. by split. Qed.

Lemma keeps_trans p w1 w2 w3 : keeps p w1 w2 → keeps p w2 w3 → keeps p w1 w3.
Proof.
  intros [H1 (n1 & S1 & F1)] [H2 (n2 & S2 & F2)]. split; [by rewrite H2 |].
  exists (n2 ++ n1). split.
  - by rewrite S2, S1, app_assoc.
  - apply Forall_app. split; [|done].
    eapply Forall_impl; [exact F2 |]. simpl. intros d Hd. by rewrite Hd.
Qed.

Lemma keeps_set_disk p d w : d !! p = disk w !! p → keeps p w (set_disk d w).
Proof.
  intros H. split; [done |]. exists [disk w]. split; [done |]. by constructor.
Qed.

Lemma M_keeps_ret {A} p (a : A) : M_keeps p (mret a).
Proof. intros w r w' [= <- <-]. apply keeps_refl. Qed.

Lemma M_keeps_lift {A} p (x : result A) : M_keeps p (lift x).
Proof. intros w r w' [= <- <-]. apply keeps_refl. Qed.

Lemma M_keeps_bind {A B} p (m : M A) (f : A → M B) :
  M_keeps p m → (∀ a, M_keeps p (f a)) → M_keeps p (m ≫= f).
Proof.
  intros Hm Hf w r w' H. unfold mbind, M_bind in H.
  destruct (m w) as [[a|e] w1] eqn:E.
  - eapply keeps_trans; [by eapply Hm | by eapply Hf].
  - injection H as <- <-. by eapply Hm.
Qed.

Section RunFacts.
Variable env : os_faults.

Lemma open_r_keeps p path : M_keeps p (open_r path).
Proof.
  intros w r w' H. unfold open_r in H.
  destruct (disk w !! path); injection H as <- <-; apply keeps_refl.
Qed.

Lemma open_w_keeps p path : p ≠ path → M_keeps p (open_w env path).
Proof.
  intros Hp w r w' H. unfold open_w in H.
  destruct (open_w_ok env); injection H as <- <-; [|apply keeps_refl].
  apply keeps_set_disk. by rewrite lookup_insert_ne.
Qed.

Lemma file_write_keeps p path data : p ≠ path → M_keeps p (file_write env path data).
Proof.
  intros Hp w r w' H. unfold file_write in H.
  destruct (write_ok env _ _); injection H as <- <-; [|apply keeps_refl].
  apply keeps_set_disk. by rewrite lookup_insert_ne.
Qed.

Lemma loop_body_keeps p row : p ≠ output_file → M_keeps p (loop_body env row).
Proof.
  intros Hp. apply M_keeps_bind; [apply M_keeps_lift |].
  intros row'. by apply file_write_keeps.
Qed.

Lemma for_each_keeps p rows body :
  (∀ row, M_keeps p (body row)) → M_keeps p (for_each rows body).
Proof.
  intros Hb. induction rows as [|row rows IH]; simpl.
  - apply M_keeps_ret.
  - apply M_keeps_bind; [apply Hb | intros _; apply IH].
Qed.

(** The [with] block leaves every file but the output file alone. *)
Lemma with_block_keeps p : p ≠ output_file → M_keeps p (with_block env).
Proof.
  intros Hp. unfold with_block.
  apply M_keeps_bind; [apply open_r_keeps | intros f_in].
  apply M_keeps_bind; [by apply open_w_keeps | intros _]. cbv zeta.
  apply M_keeps_bind; [apply M_keeps_lift | intros [header reader]].
  apply M_keeps_bind; [by apply file_write_keeps | intros _].
  apply M_keeps_bind.
  - apply for_each_keeps. intros row. by apply loop_body_keeps.
  - intros _. destruct (reader.2); [apply M_keeps_lift | apply M_keeps_ret].
Qed.
End RunFacts.

(** ** The run: what a successful run has computed *)

#[local] Opaque input_file output_file.

Lemma load_Ok (w : world) (doc : Document) :
  load w = Ok doc ↔
  ∃ bytes, disk w !! input_file = Some bytes ∧ utf8_valid bytes = true ∧
           csv_reader (universal_newlines bytes) = (doc, None).
Proof.
  unfold load. destruct (disk w !! input_file) as [bytes|].
  - destruct (utf8_valid bytes) eqn:Hv.
    + rewrite csv_reader_file_valid by done.
      destruct (csv_reader _) as [rows [e|]] eqn:Hr; split.
      * intros [=].
      * intros (b & [= <-] & _ & H). congruence.
      * intros [= <-]. by exists bytes.
      * intros (b & [= <-] & _ & H). congruence.
    + destruct (csv_reader_file bytes) as [rows oe] eqn:Hr.
      assert (oe ≠ None) as Hoe.
      { destruct (csv_reader_file_invalid bytes Hv) as [H | H];
          rewrite Hr in H; simpl in H; by subst oe. }
      destruct oe as [e|]; [|done].
      split; [intros [=] | intros (b & [= <-] & ? & _); congruence].
  - split; [intros [=] | intros (b & [=] & _)].
Qed.

(** The same, in terms of the reader of the run. *)
Lemma load_Ok_file (w : world) (doc : Document) :
  load w = Ok doc ↔
  ∃ bytes, disk w !! input_file = Some bytes ∧ csv_reader_file bytes = (doc, None).
Proof.
  unfold load. destruct (disk w !! input_file) as [bytes|].
  - destruct (csv_reader_file bytes) as [rows [e|]] eqn:Hr; split.
    + intros [=].
    + intros (b & [= <-] & H). congruence.
    + intros [= <-]. by exists bytes.
    + intros (b & [= <-] & H). congruence.
  - split; [intros [=] | intros (b & [=] & _)].
Qed.

Lemma M_bind_eq {A B} (m : M A) (f : A → M B) (w : world) :
  (m ≫= f) w = match m w with
               | (Ok a, w') => f a w'
               | (Raise e, w') => (Raise e, w')
               end.
Proof. reflexivity. Qed.

Lemma loop_body_eq env row w :
  loop_body env row w
  = match augment_row row with
    | Ok row' => file_write env output_file (writerow_line row') w
    | Raise e => (Raise e, w)
    end.
Proof. unfold loop_body. rewrite M_bind_eq. unfold lift. by destruct (augment_row row). Qed.

Lemma file_write_eq env path data w c :
  disk w !! path = Some c →
  file_write env path data w
  = if write_ok env c data
    then (Ok tt, set_disk (<[path := c +:+ data]> (disk w)) w)
    else (Raise (OSError SysWrite), w).
Proof. intros H. unfold file_write. by rewrite H. Qed.

Section RunResult.
Variable env : os_faults.

Lemma for_each_loop_body_Ok rows w w' c :
  for_each rows (loop_body env) w = (Ok tt, w') →
  disk w !! output_file = Some c →
  ∃ out, augment_rows rows = Ok out ∧
         disk w' = <[output_file := c +:+ csv_text out]> (disk w) ∧
         stdout w' = stdout w.
Proof.
  revert w c. induction rows as [|row rows IH]; intros w c H Hc; simpl in *.
  - injection H as <-. exists []. split; [done |]. simpl.
    by rewrite string_app_nil_r, insert_id.
  - rewrite M_bind_eq, loop_body_eq in H.
    destruct (augment_row row) as [row'|e]; [|done].
    rewrite (file_write_eq _ _ _ _ c) in H by done.
    destruct (write_ok env c (writerow_line row')); [|done].
    eapply IH in H; [|simpl; apply lookup_insert_eq].
    destruct H as (out & -> & Hd & Hs). exists (row' :: out).
    split; [done |]. simpl in *.
    by rewrite Hd, insert_insert_eq, string_app_assoc.
Qed.

(** A [with] block that ends normally has loaded the document, augmented
    it and written it to the output file. *)
Lemma with_block_Ok w w' :
  with_block env w = (Ok tt, w') →
  ∃ doc out, load w = Ok doc ∧ augment doc = Ok out ∧
             disk w' = <[output_file := csv_text out]> (disk w) ∧
             stdout w' = stdout w.
Proof.
  unfold with_block. intros H.
  rewrite M_bind_eq in H. unfold open_r in H.
  destruct (disk w !! input_file) as [bytes|] eqn:Hin; [|done].
  rewrite M_bind_eq in H. unfold open_w in H.
  destruct (open_w_ok env); [|done].
  cbv zeta in H. rewrite M_bind_eq in H. unfold lift at 1 in H.
  destruct (csv_reader_file bytes) as [rows e] eqn:Hr.
  destruct rows as [|header rows]; simpl in H; [by destruct e |].
  rewrite M_bind_eq in H. unfold writerow in H.
  rewrite (file_write_eq _ _ _ _ "") in H by (simpl; apply lookup_insert_eq).
  destruct (write_ok env _ _); [|done].
  unfold for_in in H. rewrite M_bind_eq in H. simpl in H.
  destruct (for_each rows (loop_body env) _) as [[[]|e'] w1] eqn:Hloop; [|done].
  eapply for_each_loop_body_Ok in Hloop; [|simpl; apply lookup_insert_eq].
  destruct Hloop as (out & Hout & Hd & Hs). simpl in *.
  destruct e as [e|]; [done |]. injection H as <-.
  exists (header :: rows), (augment_header header :: out). repeat split.
  - apply load_Ok_file. by exists bytes.
  - simpl. by rewrite Hout.
  - by rewrite Hd, !insert_insert_eq.
  - done.
Qed.

Lemma main_Ok w w' :
  main env w = (Ok tt, w') →
  ∃ doc out, load w = Ok doc ∧ augment doc = Ok out ∧
             disk w' = <[input_file := csv_text out]> (delete output_file (disk w)) ∧
             stdout w' = stdout w ++ ["Updated export_tags.csv with Japanese descriptions."].
Proof.
  unfold main. rewrite M_bind_eq. intros H.
  destruct (with_block env w) as [[[]|e] w1] eqn:Hb; [|done].
  apply with_block_Ok in Hb as (doc & out & Hl & Ha & Hd & Hs).
  exists doc, out. split; [done |]. split; [done |].
  rewrite M_bind_eq in H.
  unfold os_replace, print in H. rewrite Hd, lookup_insert_eq in H.
  destruct (replace_ok env); [|done]. injection H as <-. simpl.
  by rewrite delete_insert_eq, Hs.
Qed.
End RunResult.

Lemma for_each_loop_body_no_faults rows out w c :
  augment_rows rows = Ok out →
  disk w !! output_file = Some c →
  ∃ w', for_each rows (loop_body no_faults) w = (Ok tt, w') ∧
        disk w' = <[output_file := c +:+ csv_text out]> (disk w) ∧
        stdout w' = stdout w.
Proof.
  revert out w c. induction rows as [|row rows IH]; intros out w c H Hc; simpl in *.
  - injection H as <-. exists w. split; [done |]. simpl.
    by rewrite string_app_nil_r, insert_id.
  - destruct (augment_row row) as [row'|e] eqn:Hrow; [|done]. simpl in H.
    destruct (augment_rows rows) as [out'|e] eqn:Hrows; [|done]. simpl in H.
    injection H as <-.
    rewrite M_bind_eq, loop_body_eq, Hrow, (file_write_eq _ _ _ _ c) by done. simpl.
    edestruct (IH out') as (w' & -> & Hd & Hs); [done | simpl; apply lookup_insert_eq |].
    exists w'. split; [done |]. simpl in *.
    by rewrite Hd, insert_insert_eq, string_app_assoc.
Qed.

Lemma with_block_no_faults w doc out :
  load w = Ok doc → augment doc = Ok out →
  ∃ w', with_block no_faults w = (Ok tt, w') ∧
        disk w' = <[output_file := csv_text out]> (disk w) ∧
        stdout w' = stdout w.
Proof.
  intros (bytes & Hin & Hr)%load_Ok_file Ha.
  destruct doc as [|header rows]; [done |]. simpl in Ha.
  destruct (augment_rows rows) as [out'|e] eqn:Hrows; [|done]. injection Ha as <-.
  unfold with_block. rewrite M_bind_eq. unfold open_r. rewrite Hin.
  rewrite M_bind_eq. unfold open_w. cbn [open_w_ok no_faults].
  cbv zeta. rewrite M_bind_eq. unfold lift at 1. rewrite Hr. cbn [next].
  rewrite M_bind_eq. unfold writerow.
  rewrite (file_write_eq _ _ _ _ "") by (simpl; apply lookup_insert_eq).
  cbn [write_ok no_faults].
  unfold for_in. rewrite M_bind_eq. cbn [fst snd].
  edestruct (for_each_loop_body_no_faults rows out') as (w1 & -> & Hd & Hs);
    [done | simpl; apply lookup_insert_eq |].
  exists w1. split; [done |]. simpl in *.
  by rewrite Hd, !insert_insert_eq.
Qed.

(** With an operating system that refuses nothing, the run succeeds as soon
    as load and augment do. *)
Lemma main_no_faults w doc out :
  load w = Ok doc → augment doc = Ok out →
  ∃ w', main no_faults w = (Ok tt, w') ∧
        disk w' = <[input_file := csv_text out]> (delete output_file (disk w)).
Proof.
  intros Hl Ha.
  destruct (with_block_no_faults w doc out Hl Ha) as (w1 & Hb & Hd & Hs).
  unfold main. rewrite M_bind_eq, Hb, M_bind_eq.
  unfold os_replace, print. rewrite Hd, lookup_insert_eq. cbn [replace_ok no_faults].
  eexists. split; [done |]. simpl.
  by rewrite delete_insert_eq.
Qed.

(** ** The events of a text *)

Lemma readlines_nil (s : string) : readlines s = [] → s = "".
Proof.
  destruct s as [|c s]; [done |]. simpl.
  case_bool_decide; [done |]. by destruct (readlines s).
Qed.

Lemma marks_app (a b : string) : marks (a +:+ b) = marks a ++ marks b.
Proof.
  induction a as [|c a IH]; [done |].
  rewrite string_app_cons. simpl. rewrite IH. by case_bool_decide.
Qed.

Lemma line_events_cons (c : ascii) (l : string) :
  line_events (String c l) = Ch c :: line_events l.
Proof. reflexivity. Qed.

Lemma text_events_marks (s : string) :
  concat (line_events <$> readlines s)
  = marks s ++ (if open_line s then [EOL] else []).
Proof.
  induction s as [|c s IH]; [done |].
  cbn [readlines marks open_line]. case_bool_decide as E.
  - rewrite fmap_cons, concat_cons, IH. by destruct s.
  - destruct (readlines s) as [|l ls] eqn:El.
    + apply readlines_nil in El as ->. done.
    + rewrite fmap_cons, concat_cons, line_events_cons.
      rewrite fmap_cons, concat_cons in IH.
      rewrite <- app_comm_cons, IH. destruct s; [done |]. done.
Qed.

Lemma csv_reader_marks (s : string) :
  csv_reader s = Reader_iter parse_reset (marks s ++ (if open_line s then [EOL] else [])).
Proof. unfold csv_reader. by rewrite text_events_marks. Qed.

(** ** The reader, one event at a time *)

Lemma Reader_iter_Ch (r : ReaderObj) (c : ascii) (evs : list event) :
  Reader_iter r (Ch c :: evs)
  = match parse_process_char r (Ch c) with
    | Raise e => ([], Some e)
    | Ok r' => Reader_iter r' evs
    end.
Proof. reflexivity. Qed.

Lemma Reader_iter_EOL (r : ReaderObj) (evs : list event) :
  Reader_iter r (EOL :: evs)
  = match parse_process_char r EOL with
    | Raise e => ([], Some e)
    | Ok r' =>
        if bool_decide (rd_state r' = START_RECORD) then
          let '(rows, e) := Reader_iter parse_reset evs in (rd_fields r' :: rows, e)
        else Reader_iter r' evs
    end.
Proof. reflexivity. Qed.

Lemma str_len_app (a b : string) : str_len (a +:+ b) = (str_len a + str_len b)%N.
Proof.
  induction a as [|c a IH]; [done |].
  rewrite string_app_cons. simpl. rewrite IH. lia.
Qed.

Lemma no_CR_app (a b : string) : no_CR (a +:+ b) ↔ no_CR a ∧ no_CR b.
Proof. unfold no_CR. rewrite all_chars_app. apply andb_true_iff. Qed.

Lemma no_CR_cons (c : ascii) (s : string) : no_CR (String c s) ↔ c ≠ CR ∧ no_CR s.
Proof.
  unfold no_CR. simpl. rewrite andb_true_iff, negb_true_iff, bool_decide_eq_false. done.
Qed.

Lemma parse_add_char_Ok (c : ascii) (r r' : ReaderObj) :
  parse_add_char c r = Ok r' →
  rd_field_len r = str_len (rd_field r) →
  rd_state r' = rd_state r ∧ rd_fields r' = rd_fields r ∧
  rd_field r' = rd_field r +:+ String c "" ∧
  rd_field_len r' = str_len (rd_field r') ∧
  ((str_len (rd_field r) ≤ field_limit)%N → (str_len (rd_field r') ≤ field_limit)%N).
Proof.
  unfold parse_add_char. intros H Hlen.
  destruct (starts_code_point c) eqn:Hc.
  - case_decide as Hlim; [done |]. injection H as <-. simpl.
    rewrite str_len_app. simpl. rewrite Hc. repeat split; lia.
  - injection H as <-. simpl.
    rewrite str_len_app. simpl. rewrite Hc. repeat split; lia.
Qed.

Lemma parse_add_char_fits (c : ascii) (r : ReaderObj) :
  rd_field_len r = str_len (rd_field r) →
  (str_len (rd_field r +:+ String c "") ≤ field_limit)%N →
  parse_add_char c r
  = Ok (mkReader (rd_state r) (rd_fields r) (rd_field r +:+ String c "")
          (str_len (rd_field r +:+ String c ""))).
Proof.
  unfold parse_add_char. intros Hlen. rewrite str_len_app. simpl.
  destruct (starts_code_point c) eqn:Hc; intros Hlim.
  - case_decide; [lia |]. do 2 f_equal. lia.
  - do 2 f_equal. lia.
Qed.

(** ** The fields the reader yields are clean *)

Lemma reader_inv_reset : reader_inv parse_reset.
Proof. by constructor. Qed.

Lemma inv_set_state (r : ReaderObj) (st : ParserState) :
  reader_inv r → (empty_state st → rd_field r = "") → reader_inv (set_state st r).
Proof. intros [] H. by constructor. Qed.

Lemma special_LF : special LF.  Proof. unfold special; auto. Qed.
Lemma special_CR : special CR.  Proof. unfold special; auto. Qed.
Lemma special_COMMA : special COMMA.  Proof. unfold special; auto. Qed.
Lemma special_DQUOTE : special DQUOTE.  Proof. unfold special; auto. Qed.
#[local] Hint Resolve special_LF special_CR special_COMMA special_DQUOTE : core.

Lemma set_state_same (r : ReaderObj) : set_state (rd_state r) r = r.
Proof. by destruct r. Qed.

Section Step.
Variables (r : ReaderObj) (c : ascii) (rest : string).
Hypothesis Hinv : reader_inv r.
Hypothesis Hu : utf8_run U_accept (rd_field r +:+ String c rest) = U_accept.

(** The character is dropped. *)
Lemma post_drop (st : ParserState) :
  special c →
  (empty_state st → rd_field r = "") →
  (c = LF → st = EAT_CRNL ∨ st = IN_QUOTED_FIELD) →
  step_post c rest (set_state st r).
Proof.
  intros Hc Hst HLF. split; [by apply inv_set_state |]. split; [|done].
  apply utf8_split in Hu as [Ha Hb]; [|done]. by apply utf8_join.
Qed.

(** The character ends the field. *)
Lemma post_save (st : ParserState) :
  special c →
  (c = LF → st = EAT_CRNL ∨ st = IN_QUOTED_FIELD) →
  step_post c rest (set_state st (parse_save_field r)).
Proof.
  intros Hc HLF. destruct Hinv. apply utf8_split in Hu as [Ha Hb]; [|done].
  split; [|by split]. constructor; simpl; try done.
  apply Forall_app. split; [done |]. by repeat constructor.
Qed.

(** The character joins the field. *)
Lemma post_add (st : ParserState) (r' : ReaderObj) :
  c ≠ CR →
  parse_add_char c r = Ok r' →
  ¬ empty_state st →
  (c = LF → st = EAT_CRNL ∨ st = IN_QUOTED_FIELD) →
  step_post c rest (set_state st r').
Proof.
  intros Hc Hadd Hst HLF. destruct Hinv.
  apply parse_add_char_Ok in Hadd as (_ & Hf & Hfield & Hlen & Hlim); [|done].
  split; [|split; [|done]].
  - constructor; simpl; try done.
    + by rewrite Hf.
    + rewrite Hfield. apply no_CR_app. split; [done |]. by apply no_CR_cons.
    + by apply Hlim.
  - simpl. by rewrite Hfield, string_app_assoc.
Qed.
End Step.

Lemma CR_neq_LF : CR ≠ LF.  Proof. done. Qed.
Lemma COMMA_neq_LF : COMMA ≠ LF.  Proof. done. Qed.
Lemma DQUOTE_neq_LF : DQUOTE ≠ LF.  Proof. done. Qed.

Lemma parse_add_char_state (c : ascii) (r r' : ReaderObj) :
  parse_add_char c r = Ok r' → rd_state r' = rd_state r.
Proof.
  unfold parse_add_char. destruct (starts_code_point c); [case_decide; [done |] |];
    by intros [= <-].
Qed.

Lemma step_Ch_inv (r r' : ReaderObj) (c : ascii) (rest : string) :
  reader_inv r →
  utf8_run U_accept (rd_field r +:+ String c rest) = U_accept →
  c ≠ CR →
  parse_process_char r (Ch c) = Ok r' →
  step_post c rest r'.
Proof.
  intros Hinv Hu Hc H.
  assert (Hemp := inv_empty r Hinv).
  assert (reader_inv (set_state START_FIELD r) ∨ rd_state r ≠ START_RECORD) as Hinv0.
  { destruct (decide (rd_state r = START_RECORD)); [left | by right].
    apply inv_set_state; [done |]. intros _. apply Hemp. auto. }
  pose proof CR_neq_LF. pose proof COMMA_neq_LF. pose proof DQUOTE_neq_LF.
  unfold parse_process_char, parse_start_field, is_newline in H.
  destruct (rd_state r) eqn:Hst;
    repeat (case_bool_decide; subst; cbn [orb andb] in H);
    try done;
    try (injection H as <-).
  all: try (destruct (parse_add_char _ _) as [r1|e] eqn:Hadd; [|done];
         cbn in H; try (injection H as <-)).
  all: try (destruct Hinv0 as [Hinv0|]; [|done]).
  all: try match goal with
       | Ha : parse_add_char _ _ = Ok ?x |- step_post _ _ ?x =>
           rewrite <- (set_state_same x), (parse_add_char_state _ _ _ Ha); simpl;
           try match goal with Hs : rd_state _ = _ |- _ => rewrite Hs end
       | Hs : rd_state ?x = _ |- step_post _ _ ?x => rewrite <- (set_state_same x), Hs
       end.
  all: first
    [ eapply post_drop;
      [ eassumption | exact Hu | by auto
      | first [ by intros [?|[?|?]] | by (intros _; simpl; apply Hemp; auto) ]
      | first [ by (intros _; auto) | by intros ? ] ]
    | eapply post_save;
      [ eassumption | exact Hu | by auto
      | first [ by (intros _; auto) | by intros ? ] ]
    | eapply post_add;
      [ eassumption | exact Hu | done | eassumption
      | by intros [?|[?|?]]
      | first [ by (intros _; auto) | by intros ? ] ] ].
Qed.

Lemma step_EOL_after_LF (r : ReaderObj) :
  rd_state r = EAT_CRNL ∨ rd_state r = IN_QUOTED_FIELD →
  parse_process_char r EOL
  = Ok (if decide (rd_state r = EAT_CRNL) then set_state START_RECORD r else r).
Proof. unfold parse_process_char. by intros [-> | ->]. Qed.

Lemma step_EOL_final (r : ReaderObj) :
  reader_inv r → utf8_run U_accept (rd_field r) = U_accept →
  ∃ r', parse_process_char r EOL = Ok r' ∧ reader_inv r' ∧
        utf8_run U_accept (rd_field r') = U_accept.
Proof.
  intros Hinv Hu. assert (Hemp := inv_empty r Hinv).
  assert (reader_inv (set_state START_RECORD (parse_save_field r))) as Hsave.
  { destruct Hinv. constructor; simpl; try done.
    apply Forall_app. split; [done |]. by repeat constructor. }
  unfold parse_process_char, parse_start_field.
  destruct (rd_state r) eqn:Hst; eexists; (split; [done |]); try done.
  split; [|done]. apply inv_set_state; [done |]. intros _. apply Hemp. auto.
Qed.

Lemma Reader_end_clean (r : ReaderObj) :
  reader_inv r → utf8_run U_accept (rd_field r) = U_accept →
  Forall (Forall clean) (Reader_end r).
Proof.
  intros [] Hu. unfold Reader_end.
  destruct (_ || _); [|done]. repeat constructor; simpl.
  apply Forall_app. split; [done |]. by repeat constructor.
Qed.

(** Every field that comes out of the reader is clean, when the text is
    valid and free of CR. *)
Lemma Reader_iter_clean (s : string) (r : ReaderObj) (tail : bool) :
  reader_inv r →
  utf8_run U_accept (rd_field r +:+ s) = U_accept →
  no_CR s →
  Forall (Forall clean) (Reader_iter r (marks s ++ if tail then [EOL] else [])).1.
Proof.
  revert r. induction s as [|c s IH]; intros r Hinv Hu HCR.
  - rewrite string_app_nil_r in Hu. cbn [marks app].
    destruct tail; [|by apply Reader_end_clean].
    rewrite Reader_iter_EOL.
    destruct (step_EOL_final r Hinv Hu) as (r' & -> & Hinv' & Hu').
    case_bool_decide; [|by apply Reader_end_clean].
    simpl. repeat constructor. apply Hinv'.
  - apply no_CR_cons in HCR as [Hc HCR].
    cbn [marks]. rewrite <- app_comm_cons, Reader_iter_Ch.
    destruct (parse_process_char r (Ch c)) as [r1|e] eqn:Hstep; [|by constructor].
    apply step_Ch_inv with (rest := s) in Hstep as (Hinv1 & Hu1 & HLF); try done.
    case_bool_decide as E; [|by apply IH].
    rewrite <- app_comm_cons, Reader_iter_EOL, step_EOL_after_LF by auto.
    destruct (HLF E) as [Hst | Hst]; rewrite Hst.
    + rewrite decide_True by done. simpl.
      destruct (Reader_iter parse_reset _) as [rows e'] eqn:Hrows. simpl.
      constructor; [apply Hinv1 |].
      change rows with (rows, e').1. rewrite <- Hrows.
      apply IH; [apply reader_inv_reset | | done].
      rewrite (inv_empty _ Hinv1) in Hu1 by (rewrite Hst; auto). done.
    + rewrite decide_False by done. rewrite Hst.
      rewrite bool_decide_eq_false_2 by done. by apply IH.
Qed.

(** What load returns is made of clean fields. *)
Lemma csv_reader_clean (bytes : string) :
  utf8_valid bytes = true →
  Forall (Forall clean) (csv_reader (universal_newlines bytes)).1.
Proof.
  intros Hv%utf8_valid_true. rewrite csv_reader_marks.
  apply Reader_iter_clean.
  - apply reader_inv_reset.
  - simpl. rewrite string_app_nil_l. by apply translate_newlines_valid.
  - apply translate_newlines_no_CR.
Qed.

Lemma load_clean (w : world) (doc : Document) :
  load w = Ok doc → Forall (Forall clean) doc.
Proof.
  intros (bytes & _ & Hv & Hr)%load_Ok.
  change doc with (doc, @None exn).1. rewrite <- Hr. by apply csv_reader_clean.
Qed.

(** ** The writer: the shape of a line *)

Lemma field_quoted_false (f : string) :
  field_quoted f = false ↔ all_chars plain f = true.
Proof.
  induction f as [|c f IH]; [done |]. simpl. unfold plain at 1.
  rewrite orb_false_iff, andb_true_iff, negb_true_iff. by rewrite IH.
Qed.

Lemma plain_spec (c : ascii) :
  plain c = true ↔ c ≠ COMMA ∧ c ≠ DQUOTE ∧ c ≠ CR ∧ c ≠ LF.
Proof.
  unfold plain, must_quote.
  rewrite negb_true_iff, !orb_false_iff, !bool_decide_eq_false. tauto.
Qed.

Lemma field_data_plain (f : string) : all_chars plain f = true → field_data f = f.
Proof.
  induction f as [|c f IH]; [done |]. simpl.
  intros [Hc Hf]%andb_true_iff. rewrite IH by done.
  apply plain_spec in Hc as (_ & Hc & _). by rewrite bool_decide_eq_false_2.
Qed.

Lemma quote_field_plain (f : string) : field_quoted f = false → quote_field f = f.
Proof.
  intros H. unfold quote_field. rewrite H. simpl.
  by apply field_data_plain, field_quoted_false.
Qed.

Lemma quote_field_quoted (f : string) :
  field_quoted f = true →
  quote_field f = String DQUOTE (field_data f +:+ String DQUOTE "").
Proof. intros H. unfold quote_field. by rewrite H. Qed.

Lemma quote_field_nil (f : string) : quote_field f = "" → f = "".
Proof.
  destruct (field_quoted f) eqn:E.
  - by rewrite quote_field_quoted.
  - by rewrite quote_field_plain.
Qed.

Lemma concat_prefixed (f : string) (fs : list string) :
  String.concat (String COMMA "") (quote_field <$> (f :: fs))
  = quote_field f +:+ prefixed fs.
Proof.
  revert f. induction fs as [|f' fs IH]; intros f.
  - simpl. by rewrite string_app_nil_r.
  - specialize (IH f'). simpl in *. by rewrite IH.
Qed.

Lemma join_append_fold (fs : list string) (rec : string) (n : nat) :
  0 < n →
  foldl (fun st fld => join_append st fld false) (rec, n) fs
  = (rec +:+ prefixed fs, n + length fs).
Proof.
  revert rec n. induction fs as [|f fs IH]; intros rec n Hn.
  - simpl. by rewrite string_app_nil_r, Nat.add_0_r.
  - cbn [foldl]. unfold join_append at 2. rewrite decide_True by done.
    rewrite IH by lia. cbn [orb prefixed length].
    f_equal; [|lia]. by rewrite !string_app_assoc.
Qed.

(** [writerow] writes the body of the record and the line terminator. *)
Lemma writerow_line_body (row : Row) :
  writerow_line row = row_body row +:+ lineterminator.
Proof.
  unfold writerow_line. destruct row as [|f fs]; [done |].
  cbn [foldl]. unfold join_append at 2. rewrite decide_False by lia.
  rewrite !string_app_nil_l. cbn [orb]. rewrite join_append_fold by lia.
  fold (quote_field f).
  rewrite bool_decide_eq_true_2 by lia. cbn [andb].
  case_bool_decide as E.
  - destruct fs as [|f' fs]; [|by destruct (quote_field f)].
    cbn [prefixed] in E. rewrite string_app_nil_r in E.
    apply quote_field_nil in E as ->. done.
  - f_equal. destruct fs as [|f' fs].
    + cbn [prefixed row_body]. rewrite string_app_nil_r.
      case_bool_decide as E'; [|done]. by subst.
    + unfold row_body. by rewrite concat_prefixed.
Qed.

Lemma csv_text_lines (doc : Document) :
  csv_text doc
  = foldr (fun row rest => row_body row +:+ lineterminator +:+ rest) "" doc.
Proof.
  induction doc as [|row doc IH]; [done |].
  cbn [csv_text foldr]. by rewrite writerow_line_body, IH, string_app_assoc.
Qed.

(** ** The reader reads back what the writer wrote *)

Lemma marks_cons (c : ascii) (s : string) :
  marks (String c s) = Ch c :: (if bool_decide (c = LF) then EOL :: marks s else marks s).
Proof. reflexivity. Qed.

Lemma plain_not_newline (c : ascii) : plain c = true → is_newline c = false.
Proof.
  intros (_ & _ & H1 & H2)%plain_spec. unfold is_newline.
  by rewrite !bool_decide_eq_false_2.
Qed.

Lemma string_app_snoc (a : string) (c : ascii) (f : string) :
  (a +:+ String c "") +:+ f = a +:+ String c f.
Proof. by rewrite string_app_assoc. Qed.

(** The characters of a field written without quotes. *)
Lemma read_plain (f : string) (r : ReaderObj) (k : list event) :
  all_chars plain f = true →
  rd_state r = START_FIELD ∨ rd_state r = IN_FIELD →
  rd_field_len r = str_len (rd_field r) →
  (str_len (rd_field r +:+ f) ≤ field_limit)%N →
  ∃ st, (st = START_FIELD ∨ st = IN_FIELD) ∧
    Reader_iter r (marks f ++ k)
    = Reader_iter (mkReader st (rd_fields r) (rd_field r +:+ f)
                     (str_len (rd_field r +:+ f))) k.
Proof.
  revert r. induction f as [|c f IH]; intros r Hf Hst Hlen Hlim.
  - exists (rd_state r). split; [done |]. rewrite string_app_nil_r, <- Hlen.
    by destruct r.
  - simpl in Hf. apply andb_true_iff in Hf as [Hc Hf].
    assert (Hnl := plain_not_newline c Hc).
    apply plain_spec in Hc as (Hc1 & Hc2 & Hc3 & Hc4).
    rewrite marks_cons, bool_decide_eq_false_2 by done.
    rewrite <- app_comm_cons, Reader_iter_Ch.
    assert (str_len (rd_field r +:+ String c "") ≤ field_limit)%N as Hlim1.
    { rewrite str_len_app in *. simpl in *. lia. }
    assert (parse_process_char r (Ch c)
            = Ok (mkReader IN_FIELD (rd_fields r) (rd_field r +:+ String c "")
                    (str_len (rd_field r +:+ String c "")))) as ->.
    { unfold parse_process_char, parse_start_field.
      destruct Hst as [E | E]; rewrite E, Hnl, ?bool_decide_eq_false_2 by done;
        rewrite parse_add_char_fits by done; cbn; by rewrite ?E. }
    edestruct (IH (mkReader IN_FIELD (rd_fields r) (rd_field r +:+ String c "")
                     (str_len (rd_field r +:+ String c ""))))
      as (st & Hst' & Heq); simpl; [done | by right | done | | ].
    + by rewrite string_app_snoc.
    + rewrite Heq. simpl. rewrite string_app_snoc. by exists st.
Qed.

(** The characters of a field between quotes. *)
Lemma read_quoted (f : string) (r : ReaderObj) (k : list event) :
  rd_state r = IN_QUOTED_FIELD →
  rd_field_len r = str_len (rd_field r) →
  (str_len (rd_field r +:+ f) ≤ field_limit)%N →
  Reader_iter r (marks (field_data f) ++ k)
  = Reader_iter (mkReader IN_QUOTED_FIELD (rd_fields r) (rd_field r +:+ f)
                   (str_len (rd_field r +:+ f))) k.
Proof.
  revert r. induction f as [|c f IH]; intros r Hst Hlen Hlim.
  - rewrite string_app_nil_r, <- Hlen, <- Hst. by destruct r.
  - assert (str_len (rd_field r +:+ String c "") ≤ field_limit)%N as Hlim1.
    { rewrite str_len_app in *. simpl in *. lia. }
    set (r1 := mkReader IN_QUOTED_FIELD (rd_fields r) (rd_field r +:+ String c "")
                 (str_len (rd_field r +:+ String c ""))).
    assert (Reader_iter r1 (marks (field_data f) ++ k)
            = Reader_iter (mkReader IN_QUOTED_FIELD (rd_fields r)
                             (rd_field r +:+ String c f)
                             (str_len (rd_field r +:+ String c f))) k) as Hnext.
    { rewrite IH; simpl; [by rewrite string_app_snoc | done | done |].
      by rewrite string_app_snoc. }
    cbn [field_data]. case_bool_decide as Eq.
    + subst c. rewrite !marks_cons, !bool_decide_eq_false_2 by done.
      rewrite <- !app_comm_cons, Reader_iter_Ch.
      unfold parse_process_char at 1. rewrite Hst.
      rewrite bool_decide_eq_true_2 by done.
      rewrite Reader_iter_Ch.
      unfold parse_process_char. cbn [rd_state set_state].
      rewrite bool_decide_eq_true_2 by done.
      rewrite parse_add_char_fits by done. exact Hnext.
    + rewrite marks_cons, <- app_comm_cons, Reader_iter_Ch.
      unfold parse_process_char. rewrite Hst, bool_decide_eq_false_2 by done.
      rewrite parse_add_char_fits by done. rewrite Hst. fold r1.
      case_bool_decide as El; [|exact Hnext].
      rewrite <- app_comm_cons, Reader_iter_EOL. exact Hnext.
Qed.

(** A whole field, from the start of the field to the point where its
    separator is due. *)
Lemma read_field (f : string) (done_ : list string) (k : list event) :
  (str_len f ≤ field_limit)%N →
  ∃ st, (st = START_FIELD ∨ st = IN_FIELD ∨ st = QUOTE_IN_QUOTED_FIELD) ∧
    Reader_iter (mkReader START_FIELD done_ "" 0) (marks (quote_field f) ++ k)
    = Reader_iter (mkReader st done_ f (str_len f)) k.
Proof.
  intros Hlim. destruct (field_quoted f) eqn:Hq.
  - rewrite quote_field_quoted by done. exists QUOTE_IN_QUOTED_FIELD.
    split; [auto |].
    rewrite marks_cons, bool_decide_eq_false_2 by done.
    rewrite <- app_comm_cons, Reader_iter_Ch.
    change (parse_process_char (mkReader START_FIELD done_ "" 0) (Ch DQUOTE))
      with (Ok (mkReader IN_QUOTED_FIELD done_ "" 0)).
    rewrite marks_app, <- app_assoc.
    rewrite read_quoted; cbn [rd_state rd_field rd_fields rd_field_len];
      [| done | done | done].
    rewrite string_app_nil_l. cbn [marks app]. rewrite Reader_iter_Ch. done.
  - rewrite quote_field_plain by done.
    edestruct (read_plain f (mkReader START_FIELD done_ "" 0) k)
      as (st & Hst & ->); cbn; [by apply field_quoted_false | auto | done | done |].
    exists st. split; [tauto | done].
Qed.

Lemma field_end_comma (st : ParserState) (done_ : list string) (f : string) (n : N) :
  st = START_FIELD ∨ st = IN_FIELD ∨ st = QUOTE_IN_QUOTED_FIELD →
  parse_process_char (mkReader st done_ f n) (Ch COMMA)
  = Ok (mkReader START_FIELD (done_ ++ [f]) "" 0).
Proof. by intros [-> | [-> | ->]]. Qed.

Lemma field_end_LF (st : ParserState) (done_ : list string) (f : string) (n : N) :
  st = START_FIELD ∨ st = IN_FIELD ∨ st = QUOTE_IN_QUOTED_FIELD →
  parse_process_char (mkReader st done_ f n) (Ch LF)
  = Ok (mkReader EAT_CRNL (done_ ++ [f]) "" 0).
Proof. by intros [-> | [-> | ->]]. Qed.

(** The fields of a record, the first of them included, up to the end of
    the line. *)
Lemma read_fields (f : string) (fs done_ : list string) (k : list event) :
  Forall (fun f => (str_len f ≤ field_limit)%N) (f :: fs) →
  Reader_iter (mkReader START_FIELD done_ "" 0)
    (marks ((quote_field f +:+ prefixed fs) +:+ String LF "") ++ k)
  = let '(rows, e) := Reader_iter parse_reset k in ((done_ ++ f :: fs) :: rows, e).
Proof.
  revert f done_. induction fs as [|f' fs IH]; intros f done_ Hall.
  - inversion_clear Hall as [|? ? Hf _].
    cbn [prefixed]. rewrite string_app_nil_r, marks_app, <- app_assoc.
    destruct (read_field f done_ (marks (String LF "") ++ k) Hf) as (st & Hst & ->).
    rewrite marks_cons, bool_decide_eq_true_2 by done. cbn [marks app].
    rewrite Reader_iter_Ch, field_end_LF by done.
    rewrite Reader_iter_EOL. done.
  - inversion_clear Hall as [|? ? Hf Hall'].
    cbn [prefixed]. rewrite string_app_assoc, marks_app, <- app_assoc.
    destruct (read_field f done_
                (marks (String COMMA (quote_field f' +:+ prefixed fs) +:+ String LF "") ++ k) Hf)
      as (st & Hst & ->).
    rewrite string_app_cons, marks_cons, bool_decide_eq_false_2 by done.
    rewrite <- app_comm_cons, Reader_iter_Ch, field_end_comma by done.
    rewrite IH by done. by rewrite <- app_assoc.
Qed.

Lemma start_record_switch (c : ascii) (k : list event) :
  is_newline c = false →
  Reader_iter parse_reset (Ch c :: k)
  = Reader_iter (mkReader START_FIELD [] "" 0) (Ch c :: k).
Proof.
  intros Hc. rewrite !Reader_iter_Ch. unfold parse_process_char. cbn [rd_state parse_reset].
  by rewrite Hc.
Qed.

(** A record that is neither empty nor a single empty field starts with a
    character that is not a newline. *)
Lemma body_head (f : string) (fs : list string) :
  ¬ (f = "" ∧ fs = []) →
  ∃ c s, (quote_field f +:+ prefixed fs) +:+ String LF "" = String c s ∧
         is_newline c = false.
Proof.
  intros Hne. destruct (field_quoted f) eqn:Hq.
  - rewrite quote_field_quoted by done. by eexists _, _.
  - rewrite quote_field_plain by done. destruct f as [|c f].
    + destruct fs as [|f' fs]; [by destruct Hne |]. by eexists _, _.
    + apply field_quoted_false in Hq. simpl in Hq.
      apply andb_true_iff in Hq as [Hc _]. eexists _, _. split; [done |].
      by apply plain_not_newline.
Qed.

(** One record. *)
Lemma read_row (row : Row) (k : list event) :
  Forall (fun f => (str_len f ≤ field_limit)%N) row →
  Reader_iter parse_reset (marks (row_body row +:+ String LF "") ++ k)
  = let '(rows, e) := Reader_iter parse_reset k in (row :: rows, e).
Proof.
  intros Hall. destruct row as [|f fs].
  - done.
  - destruct (decide (f = "" ∧ fs = [])) as [[-> ->] | Hne].
    + done.
    + assert (row_body (f :: fs) = quote_field f +:+ prefixed fs) as ->.
      { destruct fs as [|f' fs].
        - cbn [row_body prefixed]. rewrite string_app_nil_r.
          rewrite bool_decide_eq_false_2; [done |]. intros ->. by apply Hne.
        - unfold row_body. by rewrite concat_prefixed. }
      destruct (body_head f fs Hne) as (c & s & Hs & Hc).
      pose proof (read_fields f fs [] k Hall) as Hread.
      rewrite Hs in *. rewrite marks_cons, <- app_comm_cons in *.
      by rewrite start_record_switch.
Qed.

(** A whole document. *)
Lemma read_lf_text (doc : Document) :
  Forall (Forall (fun f => (str_len f ≤ field_limit)%N)) doc →
  Reader_iter parse_reset (marks (lf_text doc)) = (doc, None).
Proof.
  induction 1 as [|row doc Hrow _ IH]; [done |].
  cbn [lf_text].
  change (String LF (lf_text doc)) with (String LF "" +:+ lf_text doc).
  rewrite <- string_app_assoc, marks_app, read_row by done.
  by rewrite IH.
Qed.

Lemma open_line_lf_text (doc : Document) : open_line (lf_text doc) = false.
Proof.
  assert (∀ a b, open_line (a +:+ String LF b) = open_line (String LF b)) as Happ.
  { intros a b. induction a as [|c a IHa]; [done |].
    rewrite string_app_cons. cbn [open_line]. rewrite IHa.
    by destruct a. }
  induction doc as [|row doc IH]; [done |].
  cbn [lf_text]. rewrite Happ. cbn [open_line]. by destruct (lf_text doc).
Qed.

(** ** What the writer writes is valid, and reads back as the document *)

Lemma no_CR_special (c : ascii) (s : string) : c ≠ CR → no_CR s → no_CR (String c s).
Proof. intros. by apply no_CR_cons. Qed.

Lemma field_data_no_CR (f : string) : no_CR f → no_CR (field_data f).
Proof.
  induction f as [|c f IH]; [done |]. intros [Hc Hf]%no_CR_cons.
  cbn [field_data]. case_bool_decide.
  - subst. by repeat apply no_CR_special; [done | done | apply IH].
  - apply no_CR_special; [done | by apply IH].
Qed.

Lemma field_data_utf8 (st : utf8_state) (f : string) :
  utf8_run st (field_data f) = utf8_run st f.
Proof.
  revert st. induction f as [|c f IH]; intros st; [done |].
  cbn [field_data]. case_bool_decide.
  - subst. rewrite !utf8_run_cons, IH, !(utf8_step_special _ DQUOTE) by auto.
    by repeat case_decide.
  - by rewrite !utf8_run_cons, IH.
Qed.

Lemma quote_field_no_CR (f : string) : no_CR f → no_CR (quote_field f).
Proof.
  intros Hf. unfold quote_field, quote_if. destruct (field_quoted f).
  - apply no_CR_special; [done |]. apply no_CR_app. split; [by apply field_data_no_CR | done].
  - by apply field_data_no_CR.
Qed.

Lemma quote_field_utf8 (f : string) :
  utf8_run U_accept f = U_accept → utf8_run U_accept (quote_field f) = U_accept.
Proof.
  intros Hf. unfold quote_field, quote_if. destruct (field_quoted f).
  - rewrite utf8_special by auto. apply utf8_join; [by rewrite field_data_utf8 | done].
  - by rewrite field_data_utf8.
Qed.

Lemma prefixed_ok (fs : list string) :
  Forall clean fs →
  no_CR (prefixed fs) ∧ utf8_run U_accept (prefixed fs) = U_accept.
Proof.
  induction 1 as [|f fs [] _ [IH1 IH2]]; [done |]. cbn [prefixed]. split.
  - apply no_CR_special; [done |]. apply no_CR_app.
    split; [by apply quote_field_no_CR | done].
  - rewrite utf8_special by auto. apply utf8_join; [by apply quote_field_utf8 | done].
Qed.

Lemma row_body_ok (row : Row) :
  Forall clean row →
  no_CR (row_body row) ∧ utf8_run U_accept (row_body row) = U_accept.
Proof.
  intros Hrow. destruct row as [|f fs]; [done |].
  destruct (decide (f = "" ∧ fs = [])) as [[-> ->] | Hne]; [done |].
  assert (row_body (f :: fs) = quote_field f +:+ prefixed fs) as ->.
  { destruct fs as [|f' fs].
    - cbn [row_body prefixed]. rewrite string_app_nil_r.
      rewrite bool_decide_eq_false_2; [done |]. intros ->. by apply Hne.
    - unfold row_body. by rewrite concat_prefixed. }
  inversion_clear Hrow as [|? ? [] Hfs]. apply prefixed_ok in Hfs as [H1 H2]. split.
  - apply no_CR_app. split; [by apply quote_field_no_CR | done].
  - apply utf8_join; [by apply quote_field_utf8 | done].
Qed.

Lemma csv_text_utf8 (doc : Document) :
  Forall (Forall clean) doc → utf8_valid (csv_text doc) = true.
Proof.
  intros Hdoc. apply utf8_valid_true. rewrite csv_text_lines.
  induction Hdoc as [|row doc Hrow _ IH]; [done |]. cbn [foldr].
  apply utf8_join; [by apply row_body_ok |].
  unfold lineterminator. rewrite !string_app_cons, string_app_nil_l.
  by rewrite !utf8_special by auto.
Qed.

Lemma csv_text_universal (doc : Document) :
  Forall (Forall clean) doc → universal_newlines (csv_text doc) = lf_text doc.
Proof.
  intros Hdoc. unfold universal_newlines. rewrite csv_text_lines.
  induction Hdoc as [|row doc Hrow _ IH]; [done |]. cbn [foldr lf_text].
  rewrite translate_newlines_line by by apply row_body_ok. by rewrite IH.
Qed.

(** Reading the bytes of a document gives the document back. *)
Lemma csv_roundtrip (doc : Document) :
  Forall (Forall clean) doc →
  TextIOWrapper_read (csv_text doc) = Ok (lf_text doc) ∧
  csv_reader (lf_text doc) = (doc, None).
Proof.
  intros Hdoc. split.
  - unfold TextIOWrapper_read. by rewrite csv_text_utf8, csv_text_universal.
  - rewrite csv_reader_marks, open_line_lf_text, app_nil_r.
    apply read_lf_text. eapply Forall_impl; [exact Hdoc |].
    intros row Hrow. eapply Forall_impl; [exact Hrow |]. by intros f [].
Qed.

Lemma load_csv_text (w : world) (doc : Document) :
  Forall (Forall clean) doc →
  disk w !! input_file = Some (csv_text doc) →
  load w = Ok doc.
Proof.
  intros Hdoc Hin. destruct (csv_roundtrip doc Hdoc) as [Hread Hparse].
  apply load_Ok. exists (csv_text doc). split; [done |].
  unfold TextIOWrapper_read in Hread.
  destruct (utf8_valid (csv_text doc)); [|done]. injection Hread as Hread.
  by rewrite Hread.
Qed.

(** ** Augmenting keeps the fields clean *)

Lemma cleanb_clean (v : string) : cleanb v = true → clean v.
Proof.
  unfold cleanb. intros [[H1 H2]%andb_true_iff H3]%andb_true_iff.
  constructor; [done | by apply N.leb_le | by apply utf8_valid_true].
Qed.

Lemma translations_clean : map_Forall (fun _ v => clean v) translations.
Proof.
  eapply map_Forall_impl; [|intros k v; apply cleanb_clean].
  refine (bool_decide_unpack _ _). by vm_compute.
Qed.

Lemma dict_get_clean (name : string) : clean (dict_get translations name "").
Proof.
  unfold dict_get. destruct (translations !! name) as [v|] eqn:E; simpl.
  - by apply translations_clean in E.
  - by constructor.
Qed.

Lemma augment_header_clean (header : Row) :
  Forall clean header → Forall clean (augment_header header).
Proof.
  intros H. unfold augment_header. case_decide; [|done].
  apply Forall_app. split; [done |]. apply Forall_cons_2; [|done].
  by apply cleanb_clean.
Qed.

Lemma augment_row_clean (row row' : Row) :
  augment_row row = Ok row' → Forall clean row → Forall clean row'.
Proof.
  intros H Hrow. destruct (augment_rowP row) as [? | n d -> | n d old rest ->];
    [done | |]; injection H as <-.
  - inversion_clear Hrow as [|? ? Hn Hrow']. inversion_clear Hrow' as [|? ? Hd _].
    repeat first [apply Forall_nil_2 | apply Forall_cons_2]; try done.
    apply dict_get_clean.
  - inversion_clear Hrow as [|? ? Hn Hrow']. inversion_clear Hrow' as [|? ? Hd Hrow''].
    inversion_clear Hrow'' as [|? ? _ Hrest].
    repeat first [assumption | apply Forall_cons_2]. apply dict_get_clean.
Qed.

Lemma augment_clean (doc out : Document) :
  augment doc = Ok out → Forall (Forall clean) doc → Forall (Forall clean) out.
Proof.
  destruct doc as [|header rows]; [done |]. simpl.
  destruct (augment_rows rows) as [rows'|] eqn:Hrows; [|done]. intros [= <-].
  inversion_clear 1 as [|? ? Hh Hr]. constructor; [by apply augment_header_clean |].
  apply augment_rows_Ok in Hrows. clear Hh.
  induction Hrows as [|row row' rows rows' H1 _ IH]; [done |].
  inversion_clear Hr. constructor; [by eapply augment_row_clean | by apply IH].
Qed.

(** ** Augmenting twice *)

Lemma augment_header_twice (header : Row) :
  2 ≤ length header → augment_header (augment_header header) = augment_header header.
Proof.
  intros H. unfold augment_header.
  destruct (decide (length header < 3)) as [Hlt | Hge].
  - rewrite decide_False; [done |]. rewrite length_app. simpl. lia.
  - by rewrite decide_False.
Qed.

Lemma augment_row_twice (row row' : Row) :
  augment_row row = Ok row' → augment_row row' = Ok row'.
Proof.
  intros H. destruct (augment_rowP row) as [? | n d -> | n d old rest ->];
    [done | |]; injection H as <-; apply augment_row_overwrite.
Qed.

Lemma augment_twice (doc out : Document) (header : Row) :
  augment doc = Ok out → doc !! 0 = Some header → 2 ≤ length header →
  augment out = Ok out.
Proof.
  destruct doc as [|h rows]; [done |]. simpl.
  destruct (augment_rows rows) as [rows'|] eqn:Hrows; [|done].
  intros [= <-] [= ->] Hlen. simpl.
  assert (augment_rows rows' = Ok rows') as ->.
  { apply augment_rows_Ok in Hrows. apply augment_rows_Ok.
    induction Hrows as [|row row' rows rows' H1 _ IH]; constructor; [|done].
    by eapply augment_row_twice. }
  simpl. by rewrite augment_header_twice.
Qed.

Lemma augment_header_length (header : Row) :
  (length header < 3 → length (augment_header header) = S (length header)) ∧
  (3 ≤ length header → length (augment_header header) = length header).
Proof.
  unfold augment_header. split; intros H.
  - rewrite decide_True by done. rewrite length_app. simpl. lia.
  - by rewrite decide_False by lia.
Qed.

(** ** The run, end to end *)

(** After a run that succeeds, the input path holds the bytes of the
    augmented document, and loading it gives that document. *)
Lemma main_load_after (env : os_faults) (w w' : world) :
  main env w = (Ok tt, w') →
  ∃ doc out, load w = Ok doc ∧ augment doc = Ok out ∧
             disk w' !! input_file = Some (csv_text out) ∧
             load w' = Ok out.
Proof.
  intros (doc & out & Hl & Ha & Hd & _)%main_Ok. exists doc, out.
  assert (disk w' !! input_file = Some (csv_text out)) as Hin.
  { rewrite Hd. apply lookup_insert_eq. }
  split; [exact Hl |]. split; [exact Ha |]. split; [exact Hin |].
  apply load_csv_text; [|exact Hin].
  eapply augment_clean; [exact Ha |]. eapply load_clean. exact Hl.
Qed.

(** How load fails. *)
Lemma load_Raise (w : world) (e : exn) :
  load w = Raise e ↔
  (e = OSError SysOpenRead ∧ disk w !! input_file = None) ∨
  (∃ bytes, disk w !! input_file = Some bytes ∧ (csv_reader_file bytes).2 = Some e).
Proof.
  unfold load. destruct (disk w !! input_file) as [bytes|].
  - destruct (csv_reader_file bytes) as [rows [e'|]] eqn:Hr; split.
    + intros [= <-]. right. exists bytes. by rewrite Hr.
    + intros [[_ [=]] | (b & [= <-] & H)]. rewrite Hr in H. by injection H as <-.
    + intros [=].
    + intros [[_ [=]] | (b & [= <-] & H)]. by rewrite Hr in H.
  - split; [intros [= <-]; by left |].
    intros [[-> _] | (b & [=] & _)]; done.
Qed.

(** The outcome of a run, from its first component. *)
Lemma run_result {A} (m : result A * world) (r : result A) :
  m.1 = r → m = (r, m.2).
Proof. destruct m. by intros <-. Qed.

(** A run either ends normally or raises. *)
Lemma result_unit_cases (r : result unit) : r = Ok tt ∨ ∃ e, r = Raise e.
Proof. destruct r as [[]|e]; [by left | right; by exists e]. Qed.

Lemma main_open_read_fails (env : os_faults) (w : world) :
  disk w !! input_file = None → main env w = (Raise (OSError SysOpenRead), w).
Proof.
  intros H. unfold main, with_block. rewrite !M_bind_eq. unfold open_r. by rewrite H.
Qed.

Lemma augment_row_Raise (row : Row) (e : exn) :
  augment_row row = Raise e → e = IndexError ∧ length row < 2.
Proof.
  destruct (augment_rowP row) as [? | ? ? -> | ? ? ? ? ->]; [|done..].
  by intros [= <-].
Qed.

Lemma for_each_loop_body_Raise (env : os_faults) (rows : list Row) (w w' : world) (e : exn) :
  for_each rows (loop_body env) w = (Raise e, w') →
  e = IndexError ∨ e = OSError SysWrite.
Proof.
  revert w. induction rows as [|row rows IH]; intros w; [done |].
  cbn [for_each]. rewrite M_bind_eq, loop_body_eq.
  destruct (augment_row row) as [row'|e'] eqn:Hrow.
  - unfold file_write. destruct (write_ok env _ _); [apply IH |].
    intros [= <- <-]. by right.
  - intros [= <- <-]. left. by apply augment_row_Raise in Hrow as [-> _].
Qed.

(** The exceptions of the [with] block, and where each comes from. *)
Lemma with_block_Raise_cases (env : os_faults) (w w' : world) (e : exn) :
  with_block env w = (Raise e, w') →
  (e = OSError SysOpenRead ∧ disk w !! input_file = None) ∨
  (∃ bytes, disk w !! input_file = Some bytes ∧
     (e = OSError SysOpenWrite ∨ e = OSError SysWrite ∨ e = IndexError ∨
      (e = StopIteration ∧ csv_reader_file bytes = ([], None)) ∨
      (csv_reader_file bytes).2 = Some e)).
Proof.
  unfold with_block. rewrite M_bind_eq. unfold open_r.
  destruct (disk w !! input_file) as [bytes|]; [|intros [= <- <-]; by left].
  intros H. right. exists bytes. split; [done |]. revert H.
  rewrite M_bind_eq. unfold open_w. destruct (open_w_ok env); [|intros [= <- <-]; auto].
  cbv zeta. rewrite M_bind_eq. unfold lift at 1.
  destruct (csv_reader_file bytes) as [rows oe] eqn:Hr.
  destruct rows as [|header rows]; cbn [next].
  { destruct oe as [e0|]; intros [= <- <-]; auto 6. }
  rewrite M_bind_eq. unfold writerow, file_write at 1.
  destruct (write_ok env _ _); [|intros [= <- <-]; auto].
  unfold for_in. rewrite M_bind_eq. cbn [fst snd].
  destruct (for_each rows (loop_body env) _) as [[[]|e1] w1] eqn:Hloop.
  - destruct oe as [e0|]; [|done]. intros [= <- <-]. auto 6.
  - intros [= <- <-]. apply for_each_loop_body_Raise in Hloop as [-> | ->]; auto.
Qed.

(** The exceptions of the script: the one of the rename, or one of the
    [with] block. *)
Lemma main_Raise_cases (env : os_faults) (w w' : world) (e : exn) :
  main env w = (Raise e, w') →
  e = OSError SysReplace ∨ with_block env w = (Raise e, w').
Proof.
  unfold main. rewrite M_bind_eq.
  destruct (with_block env w) as [[[]|e'] w1]; [|intros [= <- <-]; by right].
  rewrite M_bind_eq. unfold os_replace, print.
  destruct (disk w1 !! output_file); [destruct (replace_ok env) |];
    intros [= <- <-]; by left.
Qed.

(** The loop, when a row is too short and nothing else goes wrong. *)
Lemma for_each_loop_body_short (rows : list Row) (w : world) (c : string) :
  Exists (fun row => length row < 2) rows →
  disk w !! output_file = Some c →
  ∃ w', for_each rows (loop_body no_faults) w = (Raise IndexError, w').
Proof.
  revert w c. induction rows as [|row rows IH]; intros w c H Hc; [by inversion H |].
  cbn [for_each]. rewrite M_bind_eq, loop_body_eq.
  destruct (augment_rowP row) as [Hs | ? ? -> | ? ? ? ? ->]; [by eexists | |].
  all: inversion_clear H as [? ? Hs | ? ? Hex]; [simpl in Hs; lia |].
  all: rewrite (file_write_eq _ _ _ _ c) by done; cbn [write_ok no_faults].
  all: eapply IH; [done | simpl; apply lookup_insert_eq].
Qed.

Lemma main_short_row (w : world) (header : Row) (rows : list Row) :
  load w = Ok (header :: rows) →
  Exists (fun row => length row < 2) rows →
  ∃ w', main no_faults w = (Raise IndexError, w').
Proof.
  intros (bytes & Hin & Hr)%load_Ok_file Hex.
  unfold main, with_block. rewrite !M_bind_eq. unfold open_r. rewrite Hin.
  rewrite M_bind_eq. unfold open_w. cbn [open_w_ok no_faults].
  cbv zeta. rewrite M_bind_eq. unfold lift at 1. rewrite Hr. cbn [next].
  rewrite M_bind_eq. unfold writerow.
  rewrite (file_write_eq _ _ _ _ "") by (simpl; apply lookup_insert_eq).
  cbn [write_ok no_faults]. unfold for_in. rewrite M_bind_eq. cbn [fst snd].
  edestruct (for_each_loop_body_short rows) as (w' & ->);
    [done | simpl; apply lookup_insert_eq |].
  by eexists.
Qed.

(** With rows of two fields or more, an index is never out of range. *)
Lemma for_each_loop_body_no_IndexError (env : os_faults) (rows : list Row) (w w' : world) :
  Forall (fun row => 2 ≤ length row) rows →
  for_each rows (loop_body env) w ≠ (Raise IndexError, w').
Proof.
  intros Hall. revert w. induction Hall as [|row rows Hrow _ IH]; intros w; [done |].
  cbn [for_each]. rewrite M_bind_eq, loop_body_eq.
  destruct (augment_rowP row) as [Hs | ? ? -> | ? ? ? ? ->]; [simpl in *; lia | |].
  all: unfold file_write; destruct (write_ok env _ _); [apply IH | done].
Qed.

Lemma main_no_IndexError (env : os_faults) (w w' : world) (header : Row) (rows : list Row) :
  load w = Ok (header :: rows) →
  Forall (fun row => 2 ≤ length row) rows →
  main env w ≠ (Raise IndexError, w').
Proof.
  intros (bytes & Hin & Hr)%load_Ok_file Hall.
  unfold main. rewrite M_bind_eq.
  destruct (with_block env w) as [[[]|e] w1] eqn:Hb.
  - rewrite M_bind_eq. unfold os_replace.
    destruct (disk w1 !! output_file); [destruct (replace_ok env) |]; done.
  - intros [= -> ->]. revert Hb.
    unfold with_block. rewrite !M_bind_eq. unfold open_r. rewrite Hin.
    rewrite M_bind_eq. unfold open_w. destruct (open_w_ok env); [|done].
    cbv zeta. rewrite M_bind_eq. unfold lift at 1. rewrite Hr. cbn [next].
    rewrite M_bind_eq. unfold writerow, file_write at 1.
    destruct (write_ok env _ _); [|done].
    unfold for_in. rewrite M_bind_eq. cbn [fst snd].
    destruct (for_each rows (loop_body env) _) as [[[]|e] w2] eqn:Hloop; [done |].
    intros [= -> ->]. by eapply for_each_loop_body_no_IndexError.
Qed.


(** ** The model at work *)

(** The two examples of the specification, in one file: the rows come out
    with their third field, unquoted where no quote is needed, each line
    ended by CR LF. *)
Example run_sample :
  (main no_faults (disk_with sample_csv)).1 = Ok tt ∧
  disk (main no_faults (disk_with sample_csv)).2 !! input_file
  = Some ("Name,DescriptionEn,DescriptionJa" +:+ lineterminator
          +:+ "^root^,Writes the relative path to the site root.,サイトのルートディレクトリへの相対パスを書き出します。画像やCSSへのパス指定に便利です。"
          +:+ lineterminator
          +:+ "^unknownTag^,Some description," +:+ lineterminator) ∧
  disk (main no_faults (disk_with sample_csv)).2 !! output_file = None ∧
  stdout (main no_faults (disk_with sample_csv)).2
  = ["Updated export_tags.csv with Japanese descriptions."].
Proof. repeat split; vm_compute; reflexivity. Qed.

(** A data row of one field stops the run at [row[1]]: the input file is as
    it was and the temporary file holds the header. *)
Example run_short_row :
  (main no_faults (disk_with short_row_csv)).1 = Raise IndexError ∧
  disk (main no_faults (disk_with short_row_csv)).2 !! input_file
  = Some short_row_csv ∧
  disk (main no_faults (disk_with short_row_csv)).2 !! output_file
  = Some ("Name,DescriptionEn,DescriptionJa" +:+ lineterminator).
Proof. repeat split; vm_compute; reflexivity. Qed.

(** A code point cut short by the end of the file raises at the end of the
    file.  The rows before it are read first, and the short one among them
    stops the run with an index error, the header being in the temporary
    file. *)
Example run_cut_short :
  csv_reader_file cut_short_csv
  = ([ ["Name"; "DescriptionEn"]; ["^root^"] ], Some UnicodeDecodeError) ∧
  (main no_faults (disk_with cut_short_csv)).1 = Raise IndexError ∧
  disk (main no_faults (disk_with cut_short_csv)).2 !! output_file
  = Some ("Name,DescriptionEn,DescriptionJa" +:+ lineterminator).
Proof. repeat split; vm_compute; reflexivity. Qed.

(** A byte that is not UTF-8 raises when its chunk is decoded: in the first
    chunk of the file, before any row is read. *)
Example run_bad_byte :
  csv_reader_file bad_byte_csv = ([], Some UnicodeDecodeError) ∧
  (main no_faults (disk_with bad_byte_csv)).1 = Raise UnicodeDecodeError ∧
  disk (main no_faults (disk_with bad_byte_csv)).2 !! output_file = Some "".
Proof. repeat split; vm_compute; reflexivity. Qed.

(** Further on in the file, it raises after the rows of the chunks before
    it.  The first chunk of [late_bad_byte_csv] holds the header and 215
    rows: they are in the temporary file when the run stops, and the input
    file is as it was. *)
Example run_late_bad_byte :
  (main no_faults (disk_with late_bad_byte_csv)).1 = Raise UnicodeDecodeError ∧
  disk (main no_faults (disk_with late_bad_byte_csv)).2 !! output_file
  = Some (csv_text (["Name"; "DescriptionEn"; "DescriptionJa"]
                    :: replicate 215 ["^else^"; "Begins the alternative branch.";
                                      dict_get translations "^else^" ""])) ∧
  disk (main no_faults (disk_with late_bad_byte_csv)).2 !! input_file
  = Some late_bad_byte_csv.
Proof.
  split; [vm_compute; reflexivity |].
  split; refine (bool_decide_unpack _ _); by vm_compute.
Qed.

(** An empty file has no header. *)
Example run_empty_file :
  (main no_faults (disk_with "")).1 = Raise StopIteration.
Proof. vm_compute. reflexivity. Qed.

(** Fields with commas, quotes and line breaks go through the writer and
    the reader unharmed. *)
Example reader_writer_sample :
  csv_reader (universal_newlines
                (csv_text [ ["a,b"; dq; "two" +:+ nl +:+ "lines"]; [""]; []; [""; ""] ]))
  = ([ ["a,b"; dq; "two" +:+ nl +:+ "lines"]; [""]; []; [""; ""] ], None).
Proof. vm_compute. reflexivity. Qed.
(** ** What the reader accepts *)

Lemma parse_add_char_bound (c : ascii) (r : ReaderObj) :
  (starts_code_point c = true → (rd_field_len r < field_limit)%N) →
  parse_add_char c r
  = Ok (mkReader (rd_state r) (rd_fields r) (rd_field r +:+ String c "")
          (rd_field_len r + if starts_code_point c then 1 else 0)).
Proof.
  unfold parse_add_char. destruct (starts_code_point c); intros H.
  - rewrite decide_False by (specialize (H eq_refl); lia). done.
  - by rewrite N.add_0_r.
Qed.

(** One character, when the field has room for it and the state is not the
    one between a line feed and the end of its line. *)
Lemma step_Ch_bound (r : ReaderObj) (c : ascii) :
  c ≠ CR →
  rd_state r ≠ EAT_CRNL →
  (starts_code_point c = true → (rd_field_len r < field_limit)%N) →
  ∃ r', parse_process_char r (Ch c) = Ok r' ∧
        (rd_field_len r' ≤ rd_field_len r + if starts_code_point c then 1 else 0)%N ∧
        (c ≠ LF → rd_state r' ≠ EAT_CRNL) ∧
        (c = LF → rd_state r' = EAT_CRNL ∨ rd_state r' = IN_QUOTED_FIELD).
Proof.
  intros Hc Hst Hroom.
  pose proof COMMA_neq_LF. pose proof DQUOTE_neq_LF.
  pose proof (parse_add_char_bound c r Hroom) as Hadd.
  pose proof (parse_add_char_bound c (set_state START_FIELD r) Hroom) as Hadd0.
  unfold parse_process_char, parse_start_field, is_newline.
  destruct (rd_state r) eqn:E; [| | | | |done];
    repeat (case_bool_decide; subst; cbn [orb andb]);
    rewrite ?Hadd, ?Hadd0;
    eexists; (split; [reflexivity |]);
    cbn [rd_state rd_field_len set_state parse_save_field]; rewrite ?E;
    (split; [lia |]); (split; [done || (intros; congruence) | intros; auto; congruence]).
Qed.

(** The reader raises nothing on a text free of CR that fits the limit. *)
Lemma Reader_iter_no_error (s : string) (r : ReaderObj) (tail : bool) :
  no_CR s →
  rd_state r ≠ EAT_CRNL →
  (rd_field_len r + str_len s ≤ field_limit)%N →
  (Reader_iter r (marks s ++ if tail then [EOL] else [])).2 = None.
Proof.
  revert r. induction s as [|c s IH]; intros r HCR Hst Hlen.
  - cbn [marks app]. destruct tail; [|done]. rewrite Reader_iter_EOL.
    destruct (parse_process_char r EOL) as [r'|e] eqn:E.
    + by case_bool_decide.
    + unfold parse_process_char, parse_start_field in E. by destruct (rd_state r).
  - apply no_CR_cons in HCR as [Hc HCR]. cbn [str_len] in Hlen.
    destruct (step_Ch_bound r c Hc Hst) as (r' & Hstep & Hlen' & Hnl & HLF).
    { intros Hs. rewrite Hs in Hlen. lia. }
    rewrite marks_cons, <- app_comm_cons, Reader_iter_Ch, Hstep.
    case_bool_decide as E; [|apply IH; [done | by apply Hnl | lia]].
    rewrite <- app_comm_cons, Reader_iter_EOL, step_EOL_after_LF by auto.
    destruct (HLF E) as [Hs | Hs]; rewrite Hs.
    + rewrite decide_True by done. cbn [rd_state set_state].
      rewrite bool_decide_eq_true_2 by done.
      specialize (IH parse_reset HCR). cbn [rd_state rd_field_len parse_reset] in IH.
      destruct (Reader_iter parse_reset _) as [rows e]. simpl in *.
      apply IH; [done | lia].
    + rewrite decide_False by done. rewrite Hs, bool_decide_eq_false_2 by done.
      apply IH; [done | by rewrite Hs | lia].
Qed.

Lemma translate_newlines_len (after_cr : bool) (s : string) :
  (str_len (translate_newlines after_cr s) ≤ str_len s)%N.
Proof.
  revert after_cr. induction s as [|c s IH]; intros after_cr; [done |].
  cbn [translate_newlines]. case_bool_decide as E1.
  - subst. specialize (IH true). cbn [str_len].
    change (starts_code_point LF) with true. change (starts_code_point CR) with true. lia.
  - destruct (bool_decide (c = LF) && after_cr) eqn:E2.
    + specialize (IH false). cbn [str_len]. destruct (starts_code_point c); lia.
    + specialize (IH false). cbn [str_len]. lia.
Qed.

(** The reader raises nothing on a text that has no more characters than a
    field may have. *)
Lemma csv_reader_no_error (bytes : string) :
  (str_len bytes ≤ field_limit)%N → (csv_reader (universal_newlines bytes)).2 = None.
Proof.
  intros Hlen. rewrite csv_reader_marks. apply Reader_iter_no_error.
  - apply translate_newlines_no_CR.
  - done.
  - pose proof (translate_newlines_len false bytes). unfold universal_newlines.
    cbn [rd_field_len parse_reset]. lia.
Qed.

(** A file that is valid UTF-8 and has no more characters than a field may
    have always loads. *)
Lemma load_within_limit (w : world) (bytes : string) :
  disk w !! input_file = Some bytes →
  utf8_valid bytes = true →
  (str_len bytes ≤ field_limit)%N →
  ∃ doc, load w = Ok doc.
Proof.
  intros Hin Hv Hlen. pose proof (csv_reader_no_error bytes Hlen) as He.
  destruct (csv_reader (universal_newlines bytes)) as [rows e] eqn:Hr.
  cbn [snd] in He. subst e. exists rows. apply load_Ok. by exists bytes.
Qed.

(** ** The lines handed over before a decoding error *)

Lemma join_app (l1 l2 : list string) : join (l1 ++ l2) = join l1 +:+ join l2.
Proof.
  induction l1 as [|s l1 IH]; [done |]. cbn [app join]. by rewrite IH, string_app_assoc.
Qed.

Lemma split_lines_join (s : string) :
  join (split_lines s).1 +:+ (split_lines s).2 = s.
Proof.
  induction s as [|c s IH]; [done |]. cbn [split_lines].
  destruct (split_lines s) as [lines partial]. cbn [fst snd] in IH.
  case_bool_decide; cbn [fst snd join]; [by rewrite string_app_assoc, IH |].
  destruct lines as [|l ls]; cbn [fst snd join] in *.
  - rewrite !string_app_nil_l in *. by rewrite IH.
  - by rewrite !string_app_cons, IH.
Qed.

Lemma readlines_join (s : string) : join (readlines s) = s.
Proof.
  induction s as [|c s IH]; [done |]. cbn [readlines].
  case_bool_decide; cbn [join]; [by rewrite IH |].
  destruct (readlines s) as [|l ls]; cbn [join] in *; [by rewrite <- IH |].
  by rewrite string_app_cons, IH.
Qed.

(** A complete line is seen by the reader as its characters and one
    end-of-line mark. *)
Lemma split_lines_marks (s : string) :
  Forall (fun l => line_events l = marks l) (split_lines s).1.
Proof.
  induction s as [|c s IH]; [by constructor |]. cbn [split_lines].
  destruct (split_lines s) as [lines partial]. cbn [fst] in IH.
  case_bool_decide as E; cbn [fst].
  - constructor; [|done]. subst c. reflexivity.
  - destruct lines as [|l ls]; [by constructor |].
    inversion_clear IH as [|? ? Hl Hls]. constructor; [|done].
    rewrite line_events_cons, Hl. cbn [marks]. by rewrite bool_decide_eq_false_2.
Qed.

Lemma line_events_marks (lines : list string) :
  Forall (fun l => line_events l = marks l) lines →
  concat (line_events <$> lines) = marks (join lines).
Proof.
  induction 1 as [|l ls Hl _ IH]; [done |].
  by rewrite fmap_cons, concat_cons, IH, Hl, <- marks_app.
Qed.

Lemma TextIOWrapper_iter_marks (chunks : list string) (st : utf8_state) (held : string)
    (pendingcr : bool) (decoded_chars : string) :
  (TextIOWrapper_iter chunks st held pendingcr decoded_chars).2 ≠ None →
  Forall (fun l => line_events l = marks l)
    (TextIOWrapper_iter chunks st held pendingcr decoded_chars).1.
Proof.
  revert st held pendingcr decoded_chars.
  induction chunks as [|chunk chunks IH]; intros st held pendingcr decoded.
  - cbn [TextIOWrapper_iter]. case_bool_decide; [|by constructor].
    by destruct (newline_decode pendingcr "" true).
  - cbn [TextIOWrapper_iter].
    destruct (utf8_decode st held chunk) as [[text [st' held']]|]; [|by constructor].
    destruct (newline_decode pendingcr text false) as [output pendingcr'].
    pose proof (split_lines_marks (decoded +:+ output)) as Hlines.
    destruct (split_lines (decoded +:+ output)) as [lines partial].
    specialize (IH st' held' pendingcr' partial).
    destruct (TextIOWrapper_iter chunks _ held' pendingcr' partial) as [more e].
    cbn [fst snd] in *. intros He. apply Forall_app. auto.
Qed.

Lemma newline_decode_no_CR (pendingcr final : bool) (text : string) :
  no_CR (newline_decode pendingcr text final).1.
Proof.
  unfold newline_decode.
  repeat match goal with
         | |- context [if ?b then _ else _] => destruct b
         end; apply translate_newlines_no_CR.
Qed.

Lemma newline_decode_len (pendingcr : bool) (text : string) :
  (str_len (newline_decode pendingcr text false).1
   + str_len (kept_CR (newline_decode pendingcr text false).2)
   ≤ str_len (kept_CR pendingcr) + str_len text)%N.
Proof.
  pose proof (newline_decode_spec pendingcr text "") as H.
  apply (f_equal str_len) in H.
  rewrite !string_app_nil_r, str_len_app in H.
  pose proof (translate_newlines_len false (kept_CR pendingcr +:+ text)) as Hlen.
  rewrite str_len_app in Hlen.
  assert (∀ b, str_len (translate_newlines false (kept_CR b)) = str_len (kept_CR b)) as Hk
    by (by intros []).
  rewrite Hk in H. lia.
Qed.

(** What is handed over is free of CR and no longer than the file. *)
Lemma TextIOWrapper_iter_bound (chunks : list string) (st : utf8_state) (held : string)
    (pendingcr : bool) (decoded_chars : string) :
  no_CR decoded_chars →
  no_CR (join (TextIOWrapper_iter chunks st held pendingcr decoded_chars).1) ∧
  (str_len (join (TextIOWrapper_iter chunks st held pendingcr decoded_chars).1)
   ≤ str_len decoded_chars + str_len (kept_CR pendingcr)
     + str_len held + str_len (join chunks))%N.
Proof.
  revert st held pendingcr decoded_chars.
  induction chunks as [|chunk chunks IH]; intros st held pendingcr decoded HCR.
  - cbn [TextIOWrapper_iter join]. case_bool_decide; [|split; [done | cbn; lia]].
    rewrite newline_decode_final. cbn [fst]. rewrite readlines_join. split.
    + apply no_CR_app. split; [done | apply translate_newlines_no_CR].
    + rewrite str_len_app.
      pose proof (translate_newlines_len false (kept_CR pendingcr)). lia.
  - cbn [TextIOWrapper_iter join].
    destruct (utf8_decode st held chunk) as [[text [st' held']]|] eqn:Hdec;
      [|split; [done | cbn; lia]].
    apply utf8_decode_bytes, (f_equal str_len) in Hdec. rewrite !str_len_app in Hdec.
    pose proof (newline_decode_len pendingcr text) as Hnl.
    pose proof (newline_decode_no_CR pendingcr false text) as Hout.
    destruct (newline_decode pendingcr text false) as [output pendingcr'].
    cbn [fst snd] in Hnl, Hout.
    pose proof (split_lines_join (decoded +:+ output)) as Hsplit.
    destruct (split_lines (decoded +:+ output)) as [lines partial].
    cbn [fst snd] in Hsplit.
    assert (no_CR (join lines) ∧ no_CR partial) as [Hlines Hpartial].
    { apply no_CR_app. rewrite Hsplit. by apply no_CR_app. }
    apply (f_equal str_len) in Hsplit. rewrite !str_len_app in Hsplit.
    specialize (IH st' held' pendingcr' partial Hpartial).
    destruct (TextIOWrapper_iter chunks _ held' pendingcr' partial) as [more e].
    cbn [fst] in *. destruct IH as [IH1 IH2]. rewrite join_app. split.
    + by apply no_CR_app.
    + rewrite !str_len_app. lia.
Qed.

(** On a file that is not valid UTF-8 and has no more characters than a
    field may have, the reader ends with the decoding error. *)
Lemma csv_reader_file_short (bytes : string) :
  utf8_valid bytes = false → (str_len bytes ≤ field_limit)%N →
  (csv_reader_file bytes).2 = Some UnicodeDecodeError.
Proof.
  intros Hv Hlen. unfold csv_reader_file.
  pose proof (TextIOWrapper_lines_invalid bytes Hv) as He.
  unfold TextIOWrapper_lines in *.
  pose proof (TextIOWrapper_iter_marks (read1_chunks CHUNK_SIZE CHUNK_SIZE bytes)
                U_accept "" false "") as Hmarks.
  pose proof (TextIOWrapper_iter_bound (read1_chunks CHUNK_SIZE CHUNK_SIZE bytes)
                U_accept "" false "") as Hbound.
  destruct (TextIOWrapper_iter _ U_accept "" false "") as [lines e].
  cbn [fst snd] in *. subst e.
  rewrite Reader_lines_Some, line_events_marks by by apply Hmarks.
  destruct Hbound as [HCR Hb]; [done |]. rewrite read1_chunks_join in Hb.
  pose proof (Reader_iter_no_error (join lines) parse_reset false HCR) as Hno.
  cbn [rd_state rd_field_len parse_reset] in Hno. rewrite app_nil_r in Hno.
  rewrite Hno; [done | done |]. cbn in Hb. lia.
Qed.

(** * The claims *)

(** C1. For every data row of the input document, augment produces an output
    row whose third field (index 2) is the translation table's value for the
    row's first field when that field is a key of the table, and the empty
    string when it is not, whether the field was appended or overwritten.
    An output row is produced for every data row as soon as every data row
    has its two fields. *)
Theorem C1_third_field_is_lookup (header : Row) (rows : list Row) :
  (Forall (fun row => 2 ≤ length row) rows →
   ∃ out, augment (header :: rows) = Ok out) ∧
  (∀ out, augment (header :: rows) = Ok out →
     ∀ i row, rows !! i = Some row →
       ∃ name row',
         row !! 0 = Some name ∧ out !! S i = Some row' ∧
         row' !! 2 = Some (dict_get translations name "") ∧
         (∀ v, translations !! name = Some v → row' !! 2 = Some v) ∧
         (translations !! name = None → row' !! 2 = Some "")).
Proof.
  split.
  - intros Hall. destruct (augment_rows_total rows Hall) as [out Hout].
    simpl. rewrite Hout. by eexists.
  - intros out Hout i row Hi. simpl in Hout.
    destruct (augment_rows rows) as [rows'|] eqn:Hrows; [|done].
    injection Hout as <-. apply augment_rows_Ok in Hrows.
    destruct (Forall2_lookup_l _ _ _ _ _ Hrows Hi) as (row' & Hi' & Hrow).
    assert (∃ name, row !! 0 = Some name ∧
                    row' !! 2 = Some (dict_get translations name "")) as (name & H0 & H2).
    { destruct (augment_rowP row) as [? | n d -> | n d old rest ->];
        [done | |]; injection Hrow as <-; by exists n. }
    exists name, row'. split; [done |]. split; [done |]. split; [done |].
    unfold dict_get in H2. split.
    + intros v Hv. by rewrite Hv in H2.
    + intros Hn. by rewrite Hn in H2.
Qed.

Lemma C1_third_field_is_lookup_witness :
  (∃ out, augment [ ["Name"; "DescriptionEn"];
                    ["^unknownTag^"; "Some description"] ] = Ok out) ∧
  ∃ name row',
    ["^unknownTag^"; "Some description"] !! 0 = Some name ∧
    [ ["Name"; "DescriptionEn"; "DescriptionJa"];
      ["^unknownTag^"; "Some description"; ""] ] !! 1 = Some row' ∧
    row' !! 2 = Some (dict_get translations name "") ∧
    (∀ v, translations !! name = Some v → row' !! 2 = Some v) ∧
    (translations !! name = None → row' !! 2 = Some "").
Proof.
  split.
  - apply (proj1 (C1_third_field_is_lookup ["Name"; "DescriptionEn"]
                    [["^unknownTag^"; "Some description"]])).
    apply Forall_cons_2; [simpl; lia | apply Forall_nil_2].
  - apply (proj2 (C1_third_field_is_lookup ["Name"; "DescriptionEn"]
                    [["^unknownTag^"; "Some description"]])
             _ eq_refl 0 _ eq_refl).
Defined.

(** C2. The transform preserves the number of rows; every data row keeps its
    fields 0 and 1 and its fields at index 3 or beyond, and the header keeps
    the fields it had: only the field at index 2 of a data row and the length
    of the header may differ between the input file and the output file. *)
Theorem C2_frame (env : os_faults) (w w' : world) :
  main env w = (Ok tt, w') →
  ∃ doc out,
    load w = Ok doc ∧ load w' = Ok out ∧ augment doc = Ok out ∧
    length out = length doc ∧
    (∀ header, doc !! 0 = Some header →
       ∃ header', out !! 0 = Some header' ∧
                  ∀ j, j < length header → header' !! j = header !! j) ∧
    (∀ i row, doc !! S i = Some row →
       ∃ row', out !! S i = Some row' ∧ ∀ j, j ≠ 2 → row' !! j = row !! j).
Proof.
  intros (doc & out & Hl & Ha & _ & Hl')%main_load_after. exists doc, out.
  split; [done |]. split; [done |]. split; [done |].
  destruct doc as [|header rows]; [done |]. simpl in Ha.
  destruct (augment_rows rows) as [rows'|] eqn:Hrows; [|done].
  injection Ha as <-. apply augment_rows_Ok in Hrows. split; [|split].
  - simpl. f_equal. symmetry. by eapply Forall2_length.
  - intros h [= <-]. eexists. split; [done |]. intros j Hj.
    unfold augment_header. case_decide; [|done]. by apply lookup_app_l.
  - intros i row Hi. simpl in Hi.
    destruct (Forall2_lookup_l _ _ _ _ _ Hrows Hi) as (row' & Hi' & Hrow).
    exists row'. split; [done |]. intros j Hj.
    destruct (augment_rowP row) as [? | n d -> | n d old rest ->];
      [done | |]; injection Hrow as <-.
    + by destruct j as [|[|[|j]]].
    + by destruct j as [|[|[|j]]].
Qed.

Lemma C2_frame_witness :
  ∃ doc out,
    load (disk_with sample_csv) = Ok doc ∧
    load (main no_faults (disk_with sample_csv)).2 = Ok out ∧
    augment doc = Ok out ∧
    length out = length doc ∧
    (∀ header, doc !! 0 = Some header →
       ∃ header', out !! 0 = Some header' ∧
                  ∀ j, j < length header → header' !! j = header !! j) ∧
    (∀ i row, doc !! S i = Some row →
       ∃ row', out !! S i = Some row' ∧ ∀ j, j ≠ 2 → row' !! j = row !! j).
Proof.
  apply (C2_frame no_faults (disk_with sample_csv)).
  apply run_result. vm_compute. reflexivity.
Defined.

(** C3. A header of fewer than 3 fields gets exactly one new column label,
    DescriptionJa, appended, so its length grows by exactly one; a header of
    3 fields or more is left as it is; and this is the header of the file
    after the run. *)
Theorem C3_header_label (header : Row) :
  (length header < 3 →
   augment_header header = header ++ ["DescriptionJa"] ∧
   length (augment_header header) = S (length header)) ∧
  (3 ≤ length header → augment_header header = header) ∧
  (∀ env w w' rows,
     main env w = (Ok tt, w') → load w = Ok (header :: rows) →
     ∃ rows', load w' = Ok (augment_header header :: rows')).
Proof.
  split; [|split].
  - intros H. split; [|by apply augment_header_length].
    unfold augment_header. by rewrite decide_True.
  - intros H. unfold augment_header. by rewrite decide_False by lia.
  - intros env w w' rows (doc & out & Hl & Ha & _ & Hl')%main_load_after Hdoc.
    rewrite Hl in Hdoc. injection Hdoc as ->. simpl in Ha.
    destruct (augment_rows rows) as [rows'|]; [|done]. injection Ha as <-.
    by exists rows'.
Qed.

Lemma C3_header_label_witness :
  (augment_header ["Name"; "DescriptionEn"]
   = ["Name"; "DescriptionEn"] ++ ["DescriptionJa"] ∧
   length (augment_header ["Name"; "DescriptionEn"]) = 3) ∧
  augment_header ["Name"; "DescriptionEn"; "DescriptionJa"]
  = ["Name"; "DescriptionEn"; "DescriptionJa"] ∧
  ∃ rows', load (main no_faults (disk_with sample_csv)).2
           = Ok (augment_header ["Name"; "DescriptionEn"] :: rows').
Proof.
  split; [|split].
  - apply (proj1 (C3_header_label ["Name"; "DescriptionEn"])). simpl. lia.
  - apply (proj1 (proj2 (C3_header_label ["Name"; "DescriptionEn"; "DescriptionJa"]))).
    simpl. lia.
  - apply (proj2 (proj2 (C3_header_label ["Name"; "DescriptionEn"]))
             no_faults (disk_with sample_csv) _
             [ ["^root^"; "Writes the relative path to the site root."];
               ["^unknownTag^"; "Some description"] ]).
    + apply run_result. vm_compute. reflexivity.
    + vm_compute. reflexivity.
Defined.

(** C4, as stated, fails: on a file whose header has a single column the
    first run appends the label and the second run appends it again. *)
Lemma C4_counterexample :
  ∃ w1 w2,
    main no_faults (disk_with narrow_header_csv) = (Ok tt, w1) ∧
    main no_faults w1 = (Ok tt, w2) ∧
    disk w2 !! input_file ≠ disk w1 !! input_file.
Proof.
  exists (main no_faults (disk_with narrow_header_csv)).2.
  exists (main no_faults (main no_faults (disk_with narrow_header_csv)).2).2.
  split; [apply run_result; vm_compute; reflexivity |].
  split; [apply run_result; vm_compute; reflexivity |].
  vm_compute. discriminate.
Qed.

(** C4, amended. The transform is idempotent on the files whose header has
    at least two fields: when one run succeeds on such a file, a second run
    on its output succeeds (if the operating system lets it), and every
    second run that succeeds leaves the same bytes at the input path. *)
Theorem C4_idempotent (env : os_faults) (w w1 : world) (header : Row) (rows : list Row) :
  main env w = (Ok tt, w1) →
  load w = Ok (header :: rows) →
  2 ≤ length header →
  (∃ w2, main no_faults w1 = (Ok tt, w2)) ∧
  (∀ env2 w2, main env2 w1 = (Ok tt, w2) →
              disk w2 !! input_file = disk w1 !! input_file).
Proof.
  intros (doc & out & Hl & Ha & Hin & Hl')%main_load_after Hdoc Hlen.
  rewrite Hl in Hdoc. injection Hdoc as ->.
  assert (augment out = Ok out) as Hout by by eapply augment_twice.
  split.
  - destruct (main_no_faults w1 out out Hl' Hout) as (w2 & Hrun & _). by exists w2.
  - intros env2 w2 (doc2 & out2 & Hl2 & Ha2 & Hin2 & _)%main_load_after.
    rewrite Hl' in Hl2. injection Hl2 as <-.
    rewrite Hout in Ha2. injection Ha2 as <-. by rewrite Hin, Hin2.
Qed.

Lemma C4_idempotent_witness :
  (∃ w2, main no_faults (main no_faults (disk_with sample_csv)).2 = (Ok tt, w2)) ∧
  (∀ env2 w2,
     main env2 (main no_faults (disk_with sample_csv)).2 = (Ok tt, w2) →
     disk w2 !! input_file
     = disk (main no_faults (disk_with sample_csv)).2 !! input_file).
Proof.
  apply (C4_idempotent no_faults (disk_with sample_csv) _
           ["Name"; "DescriptionEn"]
           [ ["^root^"; "Writes the relative path to the site root."];
             ["^unknownTag^"; "Some description"] ]).
  - apply run_result. vm_compute. reflexivity.
  - vm_compute. reflexivity.
  - simpl. lia.
Defined.

(** C5. Atomicity on failure: when the run raises, at whatever step (load,
    augment, write, or the replace step itself), the input path holds what it
    held before the run; and through the whole run the input path never
    holds anything but its old content, until the one step that puts the
    complete document there. *)
Theorem C5_atomic (env : os_faults) (w w' : world) (r : result unit) :
  main env w = (r, w') →
  ∃ new,
    seen w' = new ++ seen w ∧
    Forall (fun d => d !! input_file = disk w !! input_file) new ∧
    (∀ e, r = Raise e → disk w' !! input_file = disk w !! input_file) ∧
    (r = Ok tt →
     ∃ doc out, load w = Ok doc ∧ augment doc = Ok out ∧
                disk w' !! input_file = Some (csv_text out)).
Proof.
  intros Hmain. assert (Hmain' := Hmain). revert Hmain.
  unfold main. rewrite M_bind_eq.
  destruct (with_block env w) as [[[]|e] w1] eqn:Hb;
    destruct (with_block_keeps env input_file paths_distinct w _ _ Hb)
      as [Hk (new & Hs & Hf)].
  - rewrite M_bind_eq. unfold os_replace, print.
    destruct (disk w1 !! output_file) as [bytes|]; [destruct (replace_ok env) |].
    + intros [= <- <-]. exists (disk w1 :: new). simpl.
      split; [by rewrite Hs |]. split; [by constructor |]. split; [done |].
      intros _. apply main_load_after in Hmain' as (doc & out & ? & ? & ? & _).
      by exists doc, out.
    + intros [= <- <-]. exists new. by repeat split.
    + intros [= <- <-]. exists new. by repeat split.
  - intros [= <- <-]. exists new. by repeat split.
Qed.

Lemma C5_atomic_witness :
  ∃ new,
    seen (main replace_fails (disk_with sample_csv)).2
    = new ++ seen (disk_with sample_csv) ∧
    Forall (fun d => d !! input_file = disk (disk_with sample_csv) !! input_file) new ∧
    (∀ e, @Raise unit (OSError SysReplace) = Raise e →
       disk (main replace_fails (disk_with sample_csv)).2 !! input_file
       = disk (disk_with sample_csv) !! input_file) ∧
    (@Raise unit (OSError SysReplace) = Ok tt →
     ∃ doc out, load (disk_with sample_csv) = Ok doc ∧ augment doc = Ok out ∧
                disk (main replace_fails (disk_with sample_csv)).2 !! input_file
                = Some (csv_text out)).
Proof.
  apply (C5_atomic replace_fails (disk_with sample_csv)).
  apply run_result. vm_compute. reflexivity.
Defined.

(** C6, as stated, fails: a row with unbalanced quotes is no error.  The
    reader is not strict; the open quoted field runs to the end of the
    input, the document loads and the run succeeds. *)
Lemma C6_counterexample :
  load (disk_with unbalanced_csv)
  = Ok [ ["Name"; "DescriptionEn"];
         ["^root^"; "Writes the relative path" +:+ nl] ] ∧
  (main no_faults (disk_with unbalanced_csv)).1 = Ok tt.
Proof. split; vm_compute; reflexivity. Qed.

(** C6, amended. Load fails with an IOError exactly when the input path is
    unreadable.  When the content is not valid UTF-8 load fails, with a
    decoding error when the file has at most [field_limit] characters, and
    otherwise with a decoding error or with the csv error of a field too
    long met before the undecodable bytes; load raises a decoding error on
    no other content.  Content that is valid UTF-8 and has at most
    [field_limit] characters always loads: unbalanced quotes are no error.
    Whenever load fails the run aborts with an error: the
    error of load, or an error of the run met before it (a row too short
    among the rows that precede the undecodable bytes, the output file that
    cannot be opened or written), and the error of load when that is the
    IOError; the run raises a decoding error on no content that is valid
    UTF-8. *)
Theorem C6_load_errors (env : os_faults) (w : world) :
  ((∃ op, load w = Raise (OSError op)) ↔ disk w !! input_file = None) ∧
  (∀ bytes, disk w !! input_file = Some bytes → utf8_valid bytes = false →
     (load w = Raise UnicodeDecodeError ∨ load w = Raise csv_Error) ∧
     ((str_len bytes ≤ field_limit)%N → load w = Raise UnicodeDecodeError)) ∧
  (load w = Raise UnicodeDecodeError →
   ∃ bytes, disk w !! input_file = Some bytes ∧ utf8_valid bytes = false) ∧
  (∀ bytes, disk w !! input_file = Some bytes → utf8_valid bytes = true →
     (str_len bytes ≤ field_limit)%N → ∃ doc, load w = Ok doc) ∧
  (∀ e, load w = Raise e →
     ∃ e' w', main env w = (Raise e', w') ∧
       (e' = e ∨ e' = IndexError ∨ e' = OSError SysOpenWrite ∨ e' = OSError SysWrite) ∧
       (e = OSError SysOpenRead → e' = e)) ∧
  (∀ w', main env w = (Raise UnicodeDecodeError, w') →
     ∃ bytes, disk w !! input_file = Some bytes ∧ utf8_valid bytes = false).
Proof.
  split; [|split; [|split; [|split; [|split]]]].
  - split.
    + intros [op [[_ H] | (b & _ & [[=] | [[=] _]]%csv_reader_file_Raise)]%load_Raise].
      done.
    + intros H. exists SysOpenRead. apply load_Raise. by left.
  - intros bytes Hin Hv. split.
    + destruct (csv_reader_file_invalid bytes Hv) as [H | H]; [left | right];
        apply load_Raise; right; by exists bytes.
    + intros Hlen. apply load_Raise. right. exists bytes. split; [done |].
      by apply csv_reader_file_short.
  - intros [[[=] _] | (b & Hb & [[=] | [_ Hv]]%csv_reader_file_Raise)]%load_Raise.
    by exists b.
  - apply load_within_limit.
  - intros e He.
    destruct (main env w) as [r w'] eqn:Hmain.
    destruct (result_unit_cases r) as [-> | [e' ->]].
    { apply main_Ok in Hmain as (doc & _ & Hl & _). congruence. }
    exists e', w'. split; [done |].
    destruct (main_Raise_cases _ _ _ _ Hmain) as [-> | Hb].
    { exfalso. revert Hmain. unfold main. rewrite M_bind_eq.
      destruct (with_block env w) as [[[]|e1] w1] eqn:Hb.
      - apply with_block_Ok in Hb as (doc & _ & Hl & _). congruence.
      - intros [= -> _]. by apply with_block_Raise_cases in Hb
          as [[[=] _] | (b & _ & [[=] | [[=] | [[=] | [[[=] _] | H]]]])];
          apply csv_reader_file_Raise in H as [[=] | [[=] _]]. }
    apply with_block_Raise_cases in Hb
      as [[-> Hin] | (b & Hin & [-> | [-> | [-> | [[-> Hr] | Hr]]]])].
    + assert (e = OSError SysOpenRead) as ->; [|auto].
      apply load_Raise in He as [[-> _] | (b & Hb & _)]; congruence.
    + split; [auto |]. intros ->.
      apply load_Raise in He as [[_ ?] | (b' & _ & [[=] | [[=] _]]%csv_reader_file_Raise)].
      congruence.
    + split; [auto |]. intros ->.
      apply load_Raise in He as [[_ ?] | (b' & _ & [[=] | [[=] _]]%csv_reader_file_Raise)].
      congruence.
    + split; [auto |]. intros ->.
      apply load_Raise in He as [[_ ?] | (b' & _ & [[=] | [[=] _]]%csv_reader_file_Raise)].
      congruence.
    + exfalso. unfold load in He. by rewrite Hin, Hr in He.
    + assert (load w = Raise e') as He'.
      { apply load_Raise. right. by exists b. }
      assert (e' = e) as -> by congruence. split; [auto | done].
  - intros w' Hmain.
    destruct (main_Raise_cases _ _ _ _ Hmain) as [[=] | Hb].
    apply with_block_Raise_cases in Hb
      as [[[=] _] | (b & Hin & [[=] | [[=] | [[=] | [[[=] _] | Hr]]]])].
    apply csv_reader_file_Raise in Hr as [[=] | [_ Hv]]. by exists b.
Qed.

Lemma C6_load_errors_witness :
  (∃ e' w', main no_faults (mkWorld ∅ [] []) = (Raise e', w') ∧
     (e' = OSError SysOpenRead ∨ e' = IndexError
      ∨ e' = OSError SysOpenWrite ∨ e' = OSError SysWrite) ∧
     (OSError SysOpenRead = OSError SysOpenRead → e' = OSError SysOpenRead)) ∧
  load (disk_with bad_byte_csv) = Raise UnicodeDecodeError ∧
  load (disk_with late_bad_byte_csv) = Raise UnicodeDecodeError ∧
  (∃ doc, load (disk_with unbalanced_csv) = Ok doc) ∧
  (∃ e' w', main no_faults (disk_with cut_short_csv) = (Raise e', w') ∧
     (e' = UnicodeDecodeError ∨ e' = IndexError
      ∨ e' = OSError SysOpenWrite ∨ e' = OSError SysWrite) ∧
     (UnicodeDecodeError = OSError SysOpenRead → e' = UnicodeDecodeError)).
Proof.
  split; [|split; [|split; [|split]]].
  - apply (proj1 (proj2 (proj2 (proj2 (proj2 (C6_load_errors no_faults (mkWorld ∅ [] []))))))).
    vm_compute. reflexivity.
  - apply (proj2 (proj1 (proj2 (C6_load_errors no_faults (disk_with bad_byte_csv)))
                    bad_byte_csv ltac:(vm_compute; reflexivity)
                    ltac:(vm_compute; reflexivity))).
    vm_compute. discriminate.
  - apply (proj2 (proj1 (proj2 (C6_load_errors no_faults (disk_with late_bad_byte_csv)))
                    late_bad_byte_csv ltac:(vm_compute; reflexivity)
                    ltac:(vm_compute; reflexivity))).
    vm_compute. discriminate.
  - apply (proj1 (proj2 (proj2 (proj2 (C6_load_errors no_faults (disk_with unbalanced_csv)))))
             unbalanced_csv).
    + vm_compute. reflexivity.
    + vm_compute. reflexivity.
    + vm_compute. discriminate.
  - apply (proj1 (proj2 (proj2 (proj2 (proj2
             (C6_load_errors no_faults (disk_with cut_short_csv))))))).
    vm_compute. reflexivity.
Defined.

(** C7, as stated, fails: the writer ends every row with CR LF.  A file
    whose lines end in LF, and whose third column already holds what the
    table gives, comes out with other bytes. *)
Lemma C7_counterexample :
  (main no_faults (disk_with lf_csv)).1 = Ok tt ∧
  augment [ ["Name"; "DescriptionEn"; "DescriptionJa"];
            ["^unknownTag^"; "Some description"; ""] ]
  = Ok [ ["Name"; "DescriptionEn"; "DescriptionJa"];
         ["^unknownTag^"; "Some description"; ""] ] ∧
  disk (main no_faults (disk_with lf_csv)).2 !! input_file = Some crlf_csv ∧
  crlf_csv ≠ lf_csv.
Proof.
  split; [vm_compute; reflexivity |]. split; [vm_compute; reflexivity |].
  split; [vm_compute; reflexivity |]. vm_compute. discriminate.
Qed.

(** C7, amended. The output is comma-delimited with double-quote quoting: a
    row is written as its fields joined by commas, a field between quotes
    (its quotes doubled) exactly when it holds a comma, a quote, CR or LF, a
    row of one empty field as a pair of quotes; every row ends with CR LF,
    whatever ended the lines of the input; and the output, read back, is
    exactly the augmented document. *)
Theorem C7_output_dialect (env : os_faults) (w w' : world) :
  main env w = (Ok tt, w') →
  ∃ doc out,
    load w = Ok doc ∧ augment doc = Ok out ∧
    disk w' !! input_file = Some (csv_text out) ∧
    csv_text out
    = foldr (fun row rest => row_body row +:+ lineterminator +:+ rest) "" out ∧
    load w' = Ok out.
Proof.
  intros (doc & out & Hl & Ha & Hin & Hl')%main_load_after. exists doc, out.
  split; [done |]. split; [done |]. split; [done |]. split; [|done].
  apply csv_text_lines.
Qed.

Lemma C7_output_dialect_witness :
  ∃ doc out,
    load (disk_with sample_csv) = Ok doc ∧ augment doc = Ok out ∧
    disk (main no_faults (disk_with sample_csv)).2 !! input_file
    = Some (csv_text out) ∧
    csv_text out
    = foldr (fun row rest => row_body row +:+ lineterminator +:+ rest) "" out ∧
    load (main no_faults (disk_with sample_csv)).2 = Ok out.
Proof.
  apply (C7_output_dialect no_faults (disk_with sample_csv)).
  apply run_result. vm_compute. reflexivity.
Defined.

(** C8. The data row with first field ^root^ and second field
    "Writes the relative path to the site root." keeps those two fields and
    gets the Japanese description of ^root^ as its third field; so it is in
    the file after a run on the sample file. *)
Theorem C8_root_example :
  augment_row ["^root^"; "Writes the relative path to the site root."]
  = Ok ["^root^"; "Writes the relative path to the site root.";
        "サイトのルートディレクトリへの相対パスを書き出します。画像やCSSへのパス指定に便利です。"] ∧
  load (main no_faults (disk_with sample_csv)).2
  = Ok [ ["Name"; "DescriptionEn"; "DescriptionJa"];
         ["^root^"; "Writes the relative path to the site root.";
          "サイトのルートディレクトリへの相対パスを書き出します。画像やCSSへのパス指定に便利です。"];
         ["^unknownTag^"; "Some description"; ""] ].
Proof. split; vm_compute; reflexivity. Qed.

(** C9. The loop body reads field 0 and field 1 of every data row: a data
    row with fewer than 2 fields makes augment, and the run, fail with an
    index out of range; when every data row has at least 2 fields, augment
    succeeds and no run raises an index error. *)
Theorem C9_index_safety (header : Row) (rows : list Row) :
  (Exists (fun row => length row < 2) rows →
   augment (header :: rows) = Raise IndexError ∧
   ∀ w, load w = Ok (header :: rows) →
        ∃ w', main no_faults w = (Raise IndexError, w')) ∧
  (Forall (fun row => 2 ≤ length row) rows →
   (∃ out, augment (header :: rows) = Ok out) ∧
   ∀ env w w', load w = Ok (header :: rows) →
               main env w ≠ (Raise IndexError, w')).
Proof.
  split.
  - intros Hex. split.
    + simpl. by rewrite augment_rows_short.
    + intros w Hl. by eapply main_short_row.
  - intros Hall. split.
    + destruct (augment_rows_total rows Hall) as [out Hout].
      simpl. rewrite Hout. by eexists.
    + intros env w w' Hl. by eapply main_no_IndexError.
Qed.

Lemma C9_index_safety_witness :
  (augment [ ["Name"; "DescriptionEn"]; ["^root^"] ] = Raise IndexError ∧
   ∀ w, load w = Ok [ ["Name"; "DescriptionEn"]; ["^root^"] ] →
        ∃ w', main no_faults w = (Raise IndexError, w')) ∧
  ((∃ out, augment [ ["Name"; "DescriptionEn"]; ["^root^"; "x"] ] = Ok out) ∧
   ∀ env w w', load w = Ok [ ["Name"; "DescriptionEn"]; ["^root^"; "x"] ] →
               main env w ≠ (Raise IndexError, w')).
Proof.
  split.
  - apply (proj1 (C9_index_safety ["Name"; "DescriptionEn"] [ ["^root^"] ])).
    apply Exists_cons_hd. simpl. lia.
  - apply (proj2 (C9_index_safety ["Name"; "DescriptionEn"] [ ["^root^"; "x"] ])).
    apply Forall_cons_2; [simpl; lia | apply Forall_nil_2].
Defined.

(** C10, as stated, fails: a header of one field comes out with two
    fields. *)
Lemma C10_counterexample :
  (main no_faults (disk_with narrow_header_csv)).1 = Ok tt ∧
  ∃ out header',
    load (main no_faults (disk_with narrow_header_csv)).2 = Ok out ∧
    out !! 0 = Some header' ∧ length header' < 3.
Proof.
  split; [vm_compute; reflexivity |].
  eexists _, _. split; [vm_compute; reflexivity |].
  split; [reflexivity |]. simpl. lia.
Qed.

(** C10, amended. After a run that succeeds the output document is the
    augmented input document, with as many rows, and every data row of the
    output has at least 3 fields: exactly 3 when the input row had fewer
    than 3, and n when it had n >= 3.  The header has one field more than in
    the input when it had fewer than 3 there (so 3 only when it had 2), and
    as many when it had 3 or more. *)
Theorem C10_row_lengths (env : os_faults) (w w' : world) :
  main env w = (Ok tt, w') →
  ∃ doc out,
    load w = Ok doc ∧ load w' = Ok out ∧ augment doc = Ok out ∧
    length out = length doc ∧
    (∀ i row', out !! S i = Some row' →
       3 ≤ length row' ∧
       ∃ row, doc !! S i = Some row ∧
              (length row < 3 → length row' = 3) ∧
              (3 ≤ length row → length row' = length row)) ∧
    (∀ header', out !! 0 = Some header' →
       ∃ header, doc !! 0 = Some header ∧
                 (length header < 3 → length header' = S (length header)) ∧
                 (3 ≤ length header → length header' = length header)) ∧
    (∀ i row, doc !! S i = Some row →
       ∃ row', out !! S i = Some row' ∧
               3 ≤ length row' ∧
               (length row < 3 → length row' = 3) ∧
               (3 ≤ length row → length row' = length row)) ∧
    (∀ header, doc !! 0 = Some header →
       ∃ header', out !! 0 = Some header' ∧
                  (length header < 3 → length header' = S (length header)) ∧
                  (3 ≤ length header → length header' = length header)).
Proof.
  intros (doc & out & Hl & Ha & _ & Hl')%main_load_after. exists doc, out.
  split; [done |]. split; [done |]. split; [done |].
  destruct doc as [|header rows]; [done |]. simpl in Ha.
  destruct (augment_rows rows) as [rows'|] eqn:Hrows; [|done].
  injection Ha as <-. apply augment_rows_Ok in Hrows.
  assert (∀ row row', augment_row row = Ok row' →
            3 ≤ length row' ∧ (length row < 3 → length row' = 3) ∧
            (3 ≤ length row → length row' = length row)) as Hlen.
  { intros row row' Hrow.
    destruct (augment_rowP row) as [? | n d -> | n d old rest ->];
      [done | |]; injection Hrow as <-; simpl; lia. }
  destruct (augment_header_length header) as [H1 H2].
  split; [|split; [|split; [|split]]].
  - simpl. f_equal. symmetry. by eapply Forall2_length.
  - intros i row' Hi. simpl in Hi.
    destruct (Forall2_lookup_r _ _ _ _ _ Hrows Hi) as (row & Hi' & Hrow).
    destruct (Hlen _ _ Hrow) as (? & ? & ?). split; [done |]. by exists row.
  - intros h' [= <-]. exists header. split; [done |]. split; [apply H1 | apply H2].
  - intros i row Hi. simpl in Hi.
    destruct (Forall2_lookup_l _ _ _ _ _ Hrows Hi) as (row' & Hi' & Hrow).
    exists row'. split; [done |]. by apply Hlen.
  - intros h [= <-]. eexists. split; [done |]. split; [apply H1 | apply H2].
Qed.

Lemma C10_row_lengths_witness :
  ∃ doc out,
    load (disk_with sample_csv) = Ok doc ∧
    load (main no_faults (disk_with sample_csv)).2 = Ok out ∧
    augment doc = Ok out ∧
    length out = length doc ∧
    (∀ i row', out !! S i = Some row' →
       3 ≤ length row' ∧
       ∃ row, doc !! S i = Some row ∧
              (length row < 3 → length row' = 3) ∧
              (3 ≤ length row → length row' = length row)) ∧
    (∀ header', out !! 0 = Some header' →
       ∃ header, doc !! 0 = Some header ∧
                 (length header < 3 → length header' = S (length header)) ∧
                 (3 ≤ length header → length header' = length header)) ∧
    (∀ i row, doc !! S i = Some row →
       ∃ row', out !! S i = Some row' ∧
               3 ≤ length row' ∧
               (length row < 3 → length row' = 3) ∧
               (3 ≤ length row → length row' = length row)) ∧
    (∀ header, doc !! 0 = Some header →
       ∃ header', out !! 0 = Some header' ∧
                  (length header < 3 → length header' = S (length header)) ∧
                  (3 ≤ length header → length header' = length header)).
Proof.
  apply (C10_row_lengths no_faults (disk_with sample_csv)).
  apply run_result. vm_compute. reflexivity.
Defined.

(** * Further properties of the script *)

(** ** The table and the third field *)

Lemma translations_values_nonempty :
  map_Forall (fun _ v => v ≠ "") translations.
Proof. refine (bool_decide_unpack _ _). by vm_compute. Qed.

(** X1. The third field of an output row is empty exactly when the name of
    the row is not a key of the translation table: no entry of the table has
    an empty description. *)
Theorem X1_empty_iff_unknown (row row' : Row) (name : string) :
  augment_row row = Ok row' →
  row !! 0 = Some name →
  (row' !! 2 = Some "" ↔ translations !! name = None).
Proof.
  intros Hrow Hname.
  assert (row' !! 2 = Some (dict_get translations name "")) as ->.
  { destruct (augment_rowP row) as [? | n d -> | n d old rest ->];
      [done | |]; injection Hrow as <-; by injection Hname as ->. }
  unfold dict_get. destruct (translations !! name) as [v|] eqn:E; simpl.
  - apply translations_values_nonempty in E. split; [|done]. by intros [= ->].
  - done.
Qed.

Lemma X1_empty_iff_unknown_witness :
  ["^unknownTag^"; "Some description"; ""] !! 2 = Some ""
  ↔ translations !! "^unknownTag^" = None.
Proof.
  apply (X1_empty_iff_unknown ["^unknownTag^"; "Some description"]
           ["^unknownTag^"; "Some description"; ""] "^unknownTag^").
  - vm_compute. reflexivity.
  - reflexivity.
Defined.

(** X11. The field at index 2 of an input row has no influence on the
    output: two rows of at least two fields that agree at every other index
    (one may have two fields and the other three) give the same output
    row. *)
Theorem X11_third_field_ignored (row1 row2 : Row) :
  2 ≤ length row1 → 2 ≤ length row2 →
  (∀ j, j ≠ 2 → row1 !! j = row2 !! j) →
  augment_row row1 = augment_row row2.
Proof.
  intros H1 H2 Hagree.
  assert (∀ (l1 l2 : Row), (∀ k, l1 !! k = l2 !! k) → l1 = l2) as Hext.
  { intros l1 l2. apply list_eq. }
  assert (H0 := Hagree 0 ltac:(lia)). assert (H1' := Hagree 1 ltac:(lia)).
  assert (Hrest : ∀ k, row1 !! (3 + k) = row2 !! (3 + k)).
  { intros k. apply Hagree. lia. }
  destruct (augment_rowP row1) as [? | n1 d1 -> | n1 d1 old1 rest1 ->]; [lia | |];
    destruct (augment_rowP row2) as [? | n2 d2 -> | n2 d2 old2 rest2 ->]; try lia;
    simpl in H0, H1'; injection H0 as ->; injection H1' as ->.
  - done.
  - assert (rest2 = []) as ->; [|done].
    apply Hext. intros k. specialize (Hrest k). simpl in Hrest. by rewrite <- Hrest.
  - assert (rest1 = []) as ->; [|done].
    apply Hext. intros k. specialize (Hrest k). simpl in Hrest. by rewrite Hrest.
  - assert (rest1 = rest2) as ->; [|done].
    apply Hext. intros k. apply (Hrest k).
Qed.

Lemma X11_third_field_ignored_witness :
  augment_row ["^root^"; "Writes the relative path to the site root."; "old text"]
  = augment_row ["^root^"; "Writes the relative path to the site root."].
Proof.
  apply X11_third_field_ignored.
  - simpl. lia.
  - simpl. lia.
  - intros j Hj. by destruct j as [|[|[|j]]].
Defined.

(** ** Writing and reading back *)

(** X2. What [csv.writer] writes, [csv.reader] reads back: for a document
    whose fields are valid UTF-8, hold no CR and fit the field size limit,
    the bytes written decode, and their rows are the rows of the document,
    whatever commas, quotes and line feeds the fields hold; the reader of
    the run, which takes the file chunk by chunk, yields the same rows. *)
Theorem X2_write_then_read (doc : Document) :
  Forall (Forall clean) doc →
  ∃ text, TextIOWrapper_read (csv_text doc) = Ok text ∧
          csv_reader text = (doc, None) ∧
          csv_reader_file (csv_text doc) = (doc, None).
Proof.
  intros Hdoc. destruct (csv_roundtrip doc Hdoc) as [Hread Hparse].
  exists (lf_text doc). split; [done |]. split; [done |].
  rewrite csv_reader_file_valid by by apply csv_text_utf8.
  by rewrite csv_text_universal.
Qed.

Lemma X2_write_then_read_witness :
  ∃ text,
    TextIOWrapper_read (csv_text [ [ "a,b"; dq; lf_field ]; [ "" ]; [] ]) = Ok text ∧
    csv_reader text = ([ [ "a,b"; dq; lf_field ]; [ "" ]; [] ], None) ∧
    csv_reader_file (csv_text [ [ "a,b"; dq; lf_field ]; [ "" ]; [] ])
    = ([ [ "a,b"; dq; lf_field ]; [ "" ]; [] ], None).
Proof.
  apply X2_write_then_read.
  repeat first [ apply Forall_nil_2
               | apply Forall_cons_2
               | apply cleanb_clean; vm_compute; reflexivity ].
Defined.

(** The hypothesis on CR is needed: the input is opened with universal
    newlines, so a CR inside a field comes back as LF. *)
Example cr_is_read_as_lf :
  (text ← TextIOWrapper_read (csv_text [ [ cr_field ] ]); Ok (csv_reader text))
  = Ok ([ [ lf_field ] ], None).
Proof. vm_compute. reflexivity. Qed.

(** X3. Every field of a loaded document is free of CR (the file is read
    with universal newlines, also inside quoted fields), is valid UTF-8 and
    has at most [field_limit] characters. *)
Theorem X3_loaded_fields (w : world) (doc : Document) (row : Row) (f : string) :
  load w = Ok doc → row ∈ doc → f ∈ row →
  no_CR f ∧ utf8_valid f = true ∧ (str_len f ≤ field_limit)%N.
Proof.
  intros Hl Hrow Hf. apply load_clean in Hl.
  rewrite Forall_forall in Hl. specialize (Hl row Hrow).
  rewrite Forall_forall in Hl. destruct (Hl f Hf) as [H1 H2 H3].
  split; [done |]. split; [by apply utf8_valid_true | done].
Qed.

Lemma X3_loaded_fields_witness :
  no_CR lf_field ∧ utf8_valid lf_field = true ∧ (str_len lf_field ≤ field_limit)%N.
Proof.
  apply (X3_loaded_fields
           (disk_with (dq +:+ cr_field +:+ dq +:+ ",x" +:+ lineterminator))
           [ [ lf_field; "x" ] ] [ lf_field; "x" ]).
  - vm_compute. reflexivity.
  - apply list_elem_of_here.
  - apply list_elem_of_here.
Defined.

(** X12. The bytes a run leaves at the input path depend on the rows of the
    input only: two files that load as the same document (one with LF and
    quotes, the other with CR LF and none, say) come out byte for byte the
    same. *)
Theorem X12_output_is_canonical (env1 env2 : os_faults) (w1 w1' w2 w2' : world) :
  main env1 w1 = (Ok tt, w1') →
  main env2 w2 = (Ok tt, w2') →
  load w1 = load w2 →
  disk w1' !! input_file = disk w2' !! input_file.
Proof.
  intros (d1 & o1 & Hl1 & Ha1 & Hin1 & _)%main_load_after
         (d2 & o2 & Hl2 & Ha2 & Hin2 & _)%main_load_after Hsame.
  rewrite Hl1, Hl2 in Hsame. injection Hsame as ->.
  rewrite Ha1 in Ha2. injection Ha2 as ->. by rewrite Hin1, Hin2.
Qed.

Lemma X12_output_is_canonical_witness :
  disk (main no_faults (disk_with sample_csv)).2 !! input_file
  = disk (main no_faults (disk_with sample_crlf_csv)).2 !! input_file.
Proof.
  apply (X12_output_is_canonical no_faults no_faults
           (disk_with sample_csv) _ (disk_with sample_crlf_csv) _).
  - apply run_result. vm_compute. reflexivity.
  - apply run_result. vm_compute. reflexivity.
  - vm_compute. reflexivity.
Defined.

(** ** What a run prints and which files it touches *)

Lemma M_quiet_ret {A} (a : A) : M_quiet (mret a).
Proof. by intros w r w' [= <- <-]. Qed.

Lemma M_quiet_lift {A} (x : result A) : M_quiet (lift x).
Proof. by intros w r w' [= <- <-]. Qed.

Lemma M_quiet_bind {A B} (m : M A) (f : A → M B) :
  M_quiet m → (∀ a, M_quiet (f a)) → M_quiet (m ≫= f).
Proof.
  intros Hm Hf w r w' H. rewrite M_bind_eq in H.
  destruct (m w) as [[a|e] w1] eqn:E.
  - rewrite (Hf a _ _ _ H). by eapply Hm.
  - injection H as <- <-. by eapply Hm.
Qed.

Lemma open_r_quiet (path : string) : M_quiet (open_r path).
Proof.
  intros w r w' H. unfold open_r in H. by destruct (disk w !! path); injection H as <- <-.
Qed.

Lemma open_w_quiet (env : os_faults) (path : string) : M_quiet (open_w env path).
Proof.
  intros w r w' H. unfold open_w in H. by destruct (open_w_ok env); injection H as <- <-.
Qed.

Lemma file_write_quiet (env : os_faults) (path data : string) :
  M_quiet (file_write env path data).
Proof.
  intros w r w' H. unfold file_write in H.
  by destruct (write_ok env _ _); injection H as <- <-.
Qed.

Lemma os_replace_quiet (env : os_faults) (src dst : string) :
  M_quiet (os_replace env src dst).
Proof.
  intros w r w' H. unfold os_replace in H.
  by destruct (disk w !! src); [destruct (replace_ok env) |]; injection H as <- <-.
Qed.

Lemma for_each_quiet (rows : list Row) (body : Row → M unit) :
  (∀ row, M_quiet (body row)) → M_quiet (for_each rows body).
Proof.
  intros Hb. induction rows as [|row rows IH]; simpl.
  - apply M_quiet_ret.
  - apply M_quiet_bind; [apply Hb | intros _; apply IH].
Qed.

Lemma with_block_quiet (env : os_faults) : M_quiet (with_block env).
Proof.
  unfold with_block.
  apply M_quiet_bind; [apply open_r_quiet | intros f_in].
  apply M_quiet_bind; [apply open_w_quiet | intros _]. cbv zeta.
  apply M_quiet_bind; [apply M_quiet_lift | intros [header reader]].
  apply M_quiet_bind; [apply file_write_quiet | intros _].
  apply M_quiet_bind.
  - apply for_each_quiet. intros row. unfold loop_body.
    apply M_quiet_bind; [apply M_quiet_lift | intros row'; apply file_write_quiet].
  - intros _. destruct (reader.2); [apply M_quiet_lift | apply M_quiet_ret].
Qed.

(** X4. The confirmation is printed exactly when the run succeeds: a run
    that succeeds adds that one line to the standard output and leaves no
    file at the temporary path; a run that fails prints nothing. *)
Theorem X4_message_iff_success (env : os_faults) (w w' : world) (r : result unit) :
  main env w = (r, w') →
  (r = Ok tt →
   stdout w' = stdout w ++ ["Updated export_tags.csv with Japanese descriptions."] ∧
   disk w' !! output_file = None) ∧
  (∀ e, r = Raise e → stdout w' = stdout w).
Proof.
  intros Hmain. split.
  - intros ->. apply main_Ok in Hmain as (doc & out & _ & _ & Hd & Hs).
    split; [done |]. rewrite Hd.
    rewrite lookup_insert_ne by apply paths_distinct. apply lookup_delete_eq.
  - intros e ->. revert Hmain. unfold main. rewrite M_bind_eq.
    destruct (with_block env w) as [[[]|e'] w1] eqn:Hb;
      pose proof (with_block_quiet env _ _ _ Hb) as Hq.
    + rewrite M_bind_eq.
      destruct (os_replace env output_file input_file w1) as [[[]|e''] w2] eqn:Hr.
      * unfold print. intros [=].
      * intros [= <- <-]. by rewrite (os_replace_quiet _ _ _ _ _ _ Hr).
    + by intros [= <- <-].
Qed.

Lemma X4_message_iff_success_witness :
  (Ok tt = Ok tt →
   stdout (main no_faults (disk_with sample_csv)).2
   = stdout (disk_with sample_csv)
     ++ ["Updated export_tags.csv with Japanese descriptions."] ∧
   disk (main no_faults (disk_with sample_csv)).2 !! output_file = None) ∧
  (∀ e, Ok tt = Raise e →
        stdout (main no_faults (disk_with sample_csv)).2
        = stdout (disk_with sample_csv)).
Proof.
  apply (X4_message_iff_success no_faults (disk_with sample_csv)).
  apply run_result. vm_compute. reflexivity.
Defined.

Lemma os_replace_keeps (env : os_faults) (p src dst : string) :
  p ≠ src → p ≠ dst → M_keeps p (os_replace env src dst).
Proof.
  intros Hs Hd w r w' H. unfold os_replace in H.
  destruct (disk w !! src); [destruct (replace_ok env) |];
    injection H as <- <-; try apply keeps_refl.
  apply keeps_set_disk. by rewrite lookup_insert_ne, lookup_delete_ne.
Qed.

(** X5. A run touches the two paths of the script and no other: at any
    other path the disk holds, at every moment of the run and after it, what
    it held before, whether the run succeeds or fails. *)
Theorem X5_other_files_untouched (env : os_faults) (w w' : world) (r : result unit)
    (p : string) :
  p ≠ input_file → p ≠ output_file →
  main env w = (r, w') →
  disk w' !! p = disk w !! p ∧
  ∃ new, seen w' = new ++ seen w ∧ Forall (fun d => d !! p = disk w !! p) new.
Proof.
  intros Hi Ho. revert w r w'. change (M_keeps p (main env)). unfold main.
  apply M_keeps_bind; [by apply with_block_keeps | intros _].
  apply M_keeps_bind; [by apply os_replace_keeps | intros _].
  intros w r w' [= <- <-]. split; [done |]. by exists [].
Qed.

Lemma X5_other_files_untouched_witness :
  disk (main no_faults (mkWorld {[ input_file := sample_csv; "notes.txt" := "kept" ]} [] [])).2
    !! "notes.txt"
  = disk (mkWorld {[ input_file := sample_csv; "notes.txt" := "kept" ]} [] []) !! "notes.txt"
  ∧ ∃ new,
      seen (main no_faults (mkWorld {[ input_file := sample_csv; "notes.txt" := "kept" ]} [] [])).2
      = new ++ seen (mkWorld {[ input_file := sample_csv; "notes.txt" := "kept" ]} [] []) ∧
      Forall (fun d => d !! "notes.txt"
                       = disk (mkWorld {[ input_file := sample_csv; "notes.txt" := "kept" ]} [] [])
                           !! "notes.txt") new.
Proof.
  apply (X5_other_files_untouched no_faults _ _ (Ok tt) "notes.txt").
  - vm_compute. discriminate.
  - vm_compute. discriminate.
  - apply run_result. vm_compute. reflexivity.
Defined.

(** ** How a run ends *)

(** The exceptions of the [with] block: none is raised by the rename. *)
Lemma with_block_Raise (env : os_faults) (w w' : world) (e : exn) :
  with_block env w = (Raise e, w') → e ≠ OSError SysReplace.
Proof.
  intros [[-> _] | (bytes & _ & [-> | [-> | [-> | [[-> _] | H]]]])]%with_block_Raise_cases;
    try done.
  by apply csv_reader_file_Raise in H as [-> | [-> _]].
Qed.

(** X6. When the rename fails, the temporary file stays on the disk with the
    whole augmented document in it, the input file is as it was and nothing
    is printed. *)
Theorem X6_replace_failure (env : os_faults) (w w' : world) :
  main env w = (Raise (OSError SysReplace), w') →
  ∃ doc out,
    load w = Ok doc ∧ augment doc = Ok out ∧
    disk w' !! output_file = Some (csv_text out) ∧
    disk w' !! input_file = disk w !! input_file ∧
    stdout w' = stdout w.
Proof.
  unfold main. rewrite M_bind_eq.
  destruct (with_block env w) as [[[]|e] w1] eqn:Hb.
  - destruct (with_block_Ok env w w1 Hb) as (doc & out & Hl & Ha & Hd & Hs).
    rewrite M_bind_eq. unfold os_replace, print.
    rewrite Hd, lookup_insert_eq. destruct (replace_ok env); [done |].
    intros [= <-]. exists doc, out. split; [done |]. split; [done |].
    rewrite Hd, lookup_insert_eq. split; [done |]. split; [|done].
    rewrite lookup_insert_ne; [done |]. intros E. by apply paths_distinct.
  - intros [= -> <-]. by apply with_block_Raise in Hb.
Qed.

Lemma X6_replace_failure_witness :
  ∃ doc out,
    load (disk_with sample_csv) = Ok doc ∧ augment doc = Ok out ∧
    disk (main replace_fails (disk_with sample_csv)).2 !! output_file
    = Some (csv_text out) ∧
    disk (main replace_fails (disk_with sample_csv)).2 !! input_file
    = disk (disk_with sample_csv) !! input_file ∧
    stdout (main replace_fails (disk_with sample_csv)).2 = stdout (disk_with sample_csv).
Proof.
  apply (X6_replace_failure replace_fails (disk_with sample_csv)).
  apply run_result. vm_compute. reflexivity.
Defined.

(** X7. With an operating system that refuses nothing, the run succeeds
    exactly when the input file loads, has a first row, and every row after
    the first has at least two fields. *)
Theorem X7_success_iff (w : world) :
  (∃ w', main no_faults w = (Ok tt, w')) ↔
  ∃ header rows, load w = Ok (header :: rows) ∧
                 Forall (fun row => 2 ≤ length row) rows.
Proof.
  split.
  - intros (w' & (doc & out & Hl & Ha & _)%main_Ok).
    destruct doc as [|header rows]; [done |]. exists header, rows. split; [done |].
    simpl in Ha. destruct (augment_rows rows) as [rows'|] eqn:Hrows; [|done].
    apply augment_rows_Ok in Hrows. clear Ha Hl.
    induction Hrows as [|row row' rows rows' Hrow _ IH]; constructor; [|done].
    destruct (augment_rowP row) as [? | ? ? -> | ? ? ? ? ->]; [done | |]; simpl; lia.
  - intros (header & rows & Hl & Hall).
    destruct (augment_rows_total rows Hall) as [out Hout].
    destruct (main_no_faults w (header :: rows) (augment_header header :: out) Hl)
      as (w' & Hrun & _); [simpl; by rewrite Hout |].
    by exists w'.
Qed.

Lemma X7_success_iff_witness :
  ∃ w', main no_faults (disk_with sample_csv) = (Ok tt, w').
Proof.
  apply (proj2 (X7_success_iff (disk_with sample_csv))).
  exists ["Name"; "DescriptionEn"],
         [ ["^root^"; "Writes the relative path to the site root."];
           ["^unknownTag^"; "Some description"] ].
  split; [vm_compute; reflexivity |].
  repeat first [apply Forall_nil_2 | apply Forall_cons_2; [simpl; lia |]].
Defined.

Lemma for_each_app (rows1 rows2 : list Row) (body : Row → M unit) (w : world) :
  for_each (rows1 ++ rows2) body w
  = match for_each rows1 body w with
    | (Ok _, w1) => for_each rows2 body w1
    | (Raise e, w1) => (Raise e, w1)
    end.
Proof.
  revert w. induction rows1 as [|row rows1 IH]; intros w; [done |].
  cbn [app for_each]. rewrite !M_bind_eq.
  destruct (body row w) as [[[]|e] w1]; [apply IH | done].
Qed.

(** X10. The rows are written as they are read: when a data row is too
    short, the run stops there with an index error, and the temporary file
    holds the header and the augmented rows that come before that row; the
    input file is as it was. *)
Theorem X10_rows_before_the_short_one (w : world) (header bad : Row) (good rest : list Row) :
  load w = Ok (header :: good ++ bad :: rest) →
  Forall (fun row => 2 ≤ length row) good →
  length bad < 2 →
  ∃ out w',
    main no_faults w = (Raise IndexError, w') ∧
    augment_rows good = Ok out ∧
    disk w' !! output_file = Some (csv_text (augment_header header :: out)) ∧
    disk w' !! input_file = disk w !! input_file.
Proof.
  intros (bytes & Hin & Hr)%load_Ok_file Hgood Hbad.
  destruct (augment_rows_total good Hgood) as [out Hout]. exists out.
  unfold main, with_block. rewrite !M_bind_eq. unfold open_r. rewrite Hin.
  rewrite M_bind_eq. unfold open_w. cbn [open_w_ok no_faults].
  cbv zeta. rewrite M_bind_eq. unfold lift at 1. rewrite Hr. cbn [next].
  rewrite M_bind_eq. unfold writerow.
  rewrite (file_write_eq _ _ _ _ "") by (simpl; apply lookup_insert_eq).
  cbn [write_ok no_faults]. unfold for_in. rewrite M_bind_eq. cbn [fst snd].
  rewrite for_each_app.
  edestruct (for_each_loop_body_no_faults good out) as (w1 & -> & Hd & Hs);
    [done | simpl; apply lookup_insert_eq |].
  cbn [for_each]. rewrite M_bind_eq, loop_body_eq, augment_row_short by done.
  eexists. split; [done |]. split; [done |]. simpl in Hd. rewrite Hd.
  rewrite !insert_insert_eq. split; [by rewrite lookup_insert_eq |].
  rewrite lookup_insert_ne; [done |]. intros E. by apply paths_distinct.
Qed.

Lemma X10_rows_before_the_short_one_witness :
  ∃ out w',
    main no_faults (disk_with late_short_row_csv) = (Raise IndexError, w') ∧
    augment_rows [ ["^root^"; "Writes the relative path to the site root."] ] = Ok out ∧
    disk w' !! output_file
    = Some (csv_text (augment_header ["Name"; "DescriptionEn"] :: out)) ∧
    disk w' !! input_file = disk (disk_with late_short_row_csv) !! input_file.
Proof.
  apply (X10_rows_before_the_short_one (disk_with late_short_row_csv)
           ["Name"; "DescriptionEn"] ["^url( item )^"]
           [ ["^root^"; "Writes the relative path to the site root."] ]
           [ ["^else^"; "Begins the alternative branch."] ]).
  - vm_compute. reflexivity.
  - apply Forall_cons_2; [simpl; lia | apply Forall_nil_2].
  - simpl. lia.
Defined.

(** ** What the reader accepts *)

Lemma EOL_state (r r' : ReaderObj) :
  parse_process_char r EOL = Ok r' →
  rd_state r' = START_RECORD ∨ rd_state r' = IN_QUOTED_FIELD.
Proof.
  unfold parse_process_char, parse_start_field.
  destruct (rd_state r) eqn:E; intros [= <-]; simpl; auto.
Qed.

Lemma Reader_iter_last_EOL (evs : list event) (r : ReaderObj) (rows : list Row) :
  Reader_iter r (evs ++ [EOL]) = (rows, None) → rows ≠ [].
Proof.
  revert r rows. induction evs as [|ev evs IH]; intros r rows.
  - cbn [app]. rewrite Reader_iter_EOL.
    destruct (parse_process_char r EOL) as [r'|e] eqn:E; [|done].
    case_bool_decide as Hst; [by intros [= <-] |].
    destruct (EOL_state _ _ E) as [? | Hq]; [done |].
    cbn [Reader_iter]. unfold Reader_end. rewrite Hq.
    rewrite (bool_decide_eq_true_2 (IN_QUOTED_FIELD = IN_QUOTED_FIELD)) by done.
    rewrite orb_true_r. by intros [= <-].
  - rewrite <- app_comm_cons. destruct ev as [c|].
    + rewrite Reader_iter_Ch.
      destruct (parse_process_char r (Ch c)) as [r'|e]; [apply IH | done].
    + rewrite Reader_iter_EOL.
      destruct (parse_process_char r EOL) as [r'|e]; [|done].
      case_bool_decide; [|apply IH].
      destruct (Reader_iter parse_reset (evs ++ [EOL])) as [rows' e']. by intros [= <-].
Qed.

Lemma text_events_last_EOL (s : string) :
  s ≠ "" →
  ∃ evs, marks s ++ (if open_line s then [EOL] else []) = evs ++ [EOL].
Proof.
  induction s as [|c s IH]; [done |]. intros _.
  destruct s as [|c' s'].
  - cbn [marks open_line]. case_bool_decide; cbn [negb app].
    + by exists [Ch c].
    + by exists [Ch c].
  - destruct IH as [evs Hevs]; [done |].
    rewrite marks_cons.
    change (open_line (String c (String c' s'))) with (open_line (String c' s')).
    case_bool_decide.
    + exists (Ch c :: EOL :: evs). by rewrite <- !app_comm_cons, Hevs.
    + exists (Ch c :: evs). by rewrite <- !app_comm_cons, Hevs.
Qed.

Lemma universal_newlines_nil (s : string) : universal_newlines s = "" → s = "".
Proof.
  destruct s as [|c s]; [done |]. unfold universal_newlines. cbn [translate_newlines].
  case_bool_decide; [done |]. by rewrite andb_false_r.
Qed.

Lemma csv_reader_no_rows (text : string) : csv_reader text = ([], None) → text = "".
Proof.
  intros H. destruct (decide (text = "")) as [|Hne]; [done |].
  destruct (text_events_last_EOL text Hne) as [evs Hevs].
  rewrite csv_reader_marks, Hevs in H. by apply Reader_iter_last_EOL in H.
Qed.

(** X8. A file yields no row at all exactly when it is empty; the run then
    stops at [next(reader)] with StopIteration, leaving an empty temporary
    file beside the empty input file. *)
Theorem X8_empty_file (w : world) :
  (load w = Ok [] ↔ disk w !! input_file = Some "") ∧
  (load w = Ok [] →
   ∀ env, open_w_ok env = true →
     ∃ w', main env w = (Raise StopIteration, w') ∧
           disk w' !! output_file = Some "" ∧
           disk w' !! input_file = Some "").
Proof.
  assert (load w = Ok [] → disk w !! input_file = Some "") as Hempty.
  { intros (bytes & Hin & _ & Hr)%load_Ok.
    apply csv_reader_no_rows, universal_newlines_nil in Hr. by subst. }
  split; [split; [done |] |].
  - intros Hin. apply load_Ok. by exists "".
  - intros Hin%Hempty env Ho.
    unfold main, with_block. rewrite !M_bind_eq. unfold open_r. rewrite Hin.
    rewrite M_bind_eq. unfold open_w. rewrite Ho.
    cbv zeta. rewrite M_bind_eq. unfold lift at 1.
    change (next (csv_reader_file ""))
      with (@Raise (Row * (list Row * option exn)) StopIteration).
    cbv beta iota. eexists. split; [done |]. simpl. split; [apply lookup_insert_eq |].
    rewrite lookup_insert_ne; [done |]. intros E. by apply paths_distinct.
Qed.

Lemma X8_empty_file_witness :
  ∃ w', main no_faults (disk_with "") = (Raise StopIteration, w') ∧
        disk w' !! output_file = Some "" ∧
        disk w' !! input_file = Some "".
Proof.
  apply (proj2 (X8_empty_file (disk_with "")));
    [vm_compute; reflexivity | reflexivity].
Defined.

(** X9. A readable file that is valid UTF-8 and has at most [field_limit]
    characters always loads: blank lines, quotes in the middle of a field,
    quotes never closed and rows of any width raise nothing in the
    reader. *)
Theorem X9_load_succeeds (w : world) (bytes : string) :
  disk w !! input_file = Some bytes →
  utf8_valid bytes = true →
  (str_len bytes ≤ field_limit)%N →
  ∃ doc, load w = Ok doc.
Proof.
  intros Hin Hv Hlen.
  destruct (csv_reader (universal_newlines bytes)) as [rows e] eqn:Hr.
  assert (e = None) as ->.
  { change e with (rows, e).2. rewrite <- Hr, csv_reader_marks.
    apply Reader_iter_no_error.
    - apply translate_newlines_no_CR.
    - done.
    - pose proof (translate_newlines_len false bytes). unfold universal_newlines.
      cbn [rd_field_len parse_reset]. lia. }
  exists rows. apply load_Ok. by exists bytes.
Qed.

Lemma X9_load_succeeds_witness : ∃ doc, load (disk_with unbalanced_csv) = Ok doc.
Proof.
  apply (X9_load_succeeds (disk_with unbalanced_csv) unbalanced_csv).
  - vm_compute. reflexivity.
  - vm_compute. reflexivity.
  - vm_compute. discriminate.
Defined.

(** ** Running again, and not running at all *)

Lemma augment_rows_twice (rows rows' : list Row) :
  augment_rows rows = Ok rows' → augment_rows rows' = Ok rows'.
Proof.
  intros Hrows%augment_rows_Ok. apply augment_rows_Ok.
  induction Hrows as [|row row' rows rows' H1 _ IH]; [constructor |].
  constructor; [by eapply augment_row_twice | done].
Qed.

(** X13. The output of a run that succeeds is always a good input: a second
    run on it succeeds (if the operating system lets it), whatever the
    header was, and it leaves every data row as the first run wrote it; only
    the header row can differ. *)
Theorem X13_second_run (env : os_faults) (w w1 : world) :
  main env w = (Ok tt, w1) →
  ∃ w2 out out2,
    main no_faults w1 = (Ok tt, w2) ∧
    load w1 = Ok out ∧ load w2 = Ok out2 ∧
    tail out2 = tail out.
Proof.
  intros (doc & out & Hl & Ha & _ & Hl1)%main_load_after.
  destruct doc as [|header rows]; [done |]. simpl in Ha.
  destruct (augment_rows rows) as [rows'|] eqn:Hrows; [|done]. injection Ha as <-.
  assert (augment_rows rows' = Ok rows') as Hrows' by by eapply augment_rows_twice.
  assert (augment (augment_header header :: rows')
          = Ok (augment_header (augment_header header) :: rows')) as Ha2.
  { simpl. by rewrite Hrows'. }
  destruct (main_no_faults w1 _ _ Hl1 Ha2) as (w2 & Hrun & _).
  exists w2, (augment_header header :: rows'),
         (augment_header (augment_header header) :: rows').
  split; [done |]. split; [done |]. split; [|done].
  apply main_load_after in Hrun as (doc2 & out2 & Hl2 & Ha2' & _ & Hl2').
  rewrite Hl1 in Hl2. injection Hl2 as <-. rewrite Ha2 in Ha2'. by injection Ha2' as <-.
Qed.

Lemma X13_second_run_witness :
  ∃ w2 out out2,
    main no_faults (main no_faults (disk_with narrow_header_csv)).2 = (Ok tt, w2) ∧
    load (main no_faults (disk_with narrow_header_csv)).2 = Ok out ∧
    load w2 = Ok out2 ∧
    tail out2 = tail out.
Proof.
  apply (X13_second_run no_faults (disk_with narrow_header_csv)).
  apply run_result. vm_compute. reflexivity.
Defined.

(** X14. When one of the two files cannot be opened the run changes nothing
    at all.  The input file is opened first: when it is missing, a file that
    was at the temporary path is not truncated. *)
Theorem X14_open_failure (env : os_faults) (w : world) :
  (disk w !! input_file = None →
   main env w = (Raise (OSError SysOpenRead), w)) ∧
  (is_Some (disk w !! input_file) → open_w_ok env = false →
   main env w = (Raise (OSError SysOpenWrite), w)).
Proof.
  split.
  - apply main_open_read_fails.
  - intros [bytes Hin] Ho. unfold main, with_block. rewrite !M_bind_eq.
    unfold open_r. rewrite Hin. rewrite M_bind_eq. unfold open_w. by rewrite Ho.
Qed.

Lemma X14_open_failure_witness :
  main no_faults (mkWorld {[ output_file := "left over" ]} [] [])
  = (Raise (OSError SysOpenRead), mkWorld {[ output_file := "left over" ]} [] [])
  ∧ main (mkFaults false (fun _ _ => true) true) (disk_with sample_csv)
    = (Raise (OSError SysOpenWrite), disk_with sample_csv).
Proof.
  split.
  - apply (proj1 (X14_open_failure no_faults (mkWorld {[ output_file := "left over" ]} [] []))).
    vm_compute. reflexivity.
  - apply (proj2 (X14_open_failure (mkFaults false (fun _ _ => true) true)
                    (disk_with sample_csv))).
    + exists sample_csv. vm_compute. reflexivity.
    + reflexivity.
Defined.

(** ** Reading and writing, row by row *)

(** X15. The file is read as the rows are written.  When the reader ends
    with an exception (a decoding error, or its own error on a field too
    long) after a header and rows of two fields or more, the run, if the
    operating system refuses nothing, stops with that exception; the
    temporary file holds the header and these rows, augmented, and the input
    file is as it was. *)
Theorem X15_rows_before_the_reader_error (w : world) (bytes : string) (header : Row)
    (rows : list Row) (e : exn) :
  disk w !! input_file = Some bytes →
  csv_reader_file bytes = (header :: rows, Some e) →
  Forall (fun row => 2 ≤ length row) rows →
  ∃ out w',
    main no_faults w = (Raise e, w') ∧
    (e = UnicodeDecodeError ∨ e = csv_Error) ∧
    (e = UnicodeDecodeError → utf8_valid bytes = false) ∧
    augment_rows rows = Ok out ∧
    disk w' !! output_file = Some (csv_text (augment_header header :: out)) ∧
    disk w' !! input_file = Some bytes.
Proof.
  intros Hin Hr Hrows.
  destruct (augment_rows_total rows Hrows) as [out Hout]. exists out.
  unfold main, with_block. rewrite !M_bind_eq. unfold open_r. rewrite Hin.
  rewrite M_bind_eq. unfold open_w. cbn [open_w_ok no_faults].
  cbv zeta. rewrite M_bind_eq. unfold lift at 1. rewrite Hr. cbn [next].
  rewrite M_bind_eq. unfold writerow.
  rewrite (file_write_eq _ _ _ _ "") by (simpl; apply lookup_insert_eq).
  cbn [write_ok no_faults]. unfold for_in. rewrite M_bind_eq. cbn [fst snd].
  edestruct (for_each_loop_body_no_faults rows out) as (w1 & -> & Hd & Hs);
    [done | simpl; apply lookup_insert_eq |].
  eexists. split; [done |].
  assert ((csv_reader_file bytes).2 = Some e) as He by by rewrite Hr.
  apply csv_reader_file_Raise in He.
  split; [destruct He as [-> | [-> _]]; auto |].
  split; [by destruct He as [-> | [_ ?]] |].
  split; [done |]. simpl in Hd. rewrite Hd, !insert_insert_eq.
  split; [by rewrite lookup_insert_eq |].
  rewrite lookup_insert_ne; [done |]. intros E. by apply paths_distinct.
Qed.

Lemma X15_rows_before_the_reader_error_witness :
  ∃ out w',
    main no_faults (disk_with cut_short_after_rows_csv) = (Raise UnicodeDecodeError, w') ∧
    (UnicodeDecodeError = UnicodeDecodeError ∨ UnicodeDecodeError = csv_Error) ∧
    (UnicodeDecodeError = UnicodeDecodeError → utf8_valid cut_short_after_rows_csv = false) ∧
    augment_rows [ ["^root^"; "Writes the relative path to the site root."] ] = Ok out ∧
    disk w' !! output_file
    = Some (csv_text (augment_header ["Name"; "DescriptionEn"] :: out)) ∧
    disk w' !! input_file = Some cut_short_after_rows_csv.
Proof.
  apply (X15_rows_before_the_reader_error (disk_with cut_short_after_rows_csv)
           cut_short_after_rows_csv ["Name"; "DescriptionEn"]
           [ ["^root^"; "Writes the relative path to the site root."] ]).
  - vm_compute. reflexivity.
  - vm_compute. reflexivity.
  - apply Forall_cons_2; [simpl; lia | apply Forall_nil_2].
Defined.
